(** * Combat Tracker Groups: the grouping, ordering and turn-skipping core

    A shallow embedding of [src/scripts/ctg.js]: the comparator
    [Ctg.sortCombatants] (lines 202-237), the group builder [Ctg.groups]
    (lines 146-195) and the [preUpdateCombat] hook installed by
    [groupSkipping] (lines 421-457).

    The code is JavaScript, so the embedding carries the fragment of the
    language's dynamic semantics that these three functions exercise:
    a variant type of values, [typeof], the conversions [ToNumber] and
    [ToString], the relational operator [>], truthiness, optional
    chaining and thrown [TypeError]s. *)

From Stdlib Require Import String Ascii Bool ZArith QArith Lia.
From Stdlib Require Import DecimalString List Permutation Sorted.
Import ListNotations.

Set Warnings "-register-all".
Local Open Scope string_scope.
Local Open Scope list_scope.
Local Open Scope Z_scope.

(** ** Values *)

(** A JavaScript number. Finite doubles are read as the rationals they
    denote: the code only subtracts two numbers and looks at whether the
    difference is zero, and compares numbers with [>]; rounding changes
    neither answer. *)
Inductive JsNum : Type :=
| NaN
| PosInf
| NegInf
| Fin (q : Q).

(** The values a property path can resolve to. Strings are sequences of
    bytes; every string literal of the source is ASCII. *)
Inductive JsVal : Type :=
| JUndefined
| JNull
| JBool (b : bool)
| JNumber (n : JsNum)
| JString (s : string)
| JArray (elems : list JsVal)
| JObject (props : list (string * JsVal)).

(** ** Completions: a call either returns or throws *)

Inductive JsError : Type :=
| TypeError.

Inductive Completion (A : Type) : Type :=
| Normal (x : A)
| Throw (e : JsError).

Arguments Normal {A} x.
Arguments Throw {A} e.

Definition bind {A B : Type} (c : Completion A) (k : A -> Completion B)
  : Completion B :=
  match c with
  | Normal x => k x
  | Throw e => Throw e
  end.

Notation "x <- c ;; k" := (bind c (fun x => k))
  (at level 61, c at next level, right associativity).

Fixpoint mapM {A B : Type} (f : A -> Completion B) (l : list A)
  : Completion (list B) :=
  match l with
  | [] => Normal []
  | x :: xs => y <- f x ;; ys <- mapM f xs ;; Normal (y :: ys)
  end.

(** [arr.reduce(callbackFn, initialValue)]: the accumulator is handed
    from one call to the next, and a throwing callback ends the
    reduction. *)
Fixpoint reduce {A B : Type} (callbackFn : B -> A -> Completion B)
         (arr : list A) (initialValue : B) : Completion B :=
  match arr with
  | [] => Normal initialValue
  | current :: rest =>
      accumulator <- callbackFn initialValue current ;;
      reduce callbackFn rest accumulator
  end.

(** ** Built-ins of the host engine

    Three built-ins are left to the engine: the grammar that reads a
    string as a number, the shortest-decimal printer of numbers, and the
    locale's collation. Everything below is stated for every engine. *)
Record Host : Type := {
  StringToNumber : string -> JsNum;
  NumberToString : JsNum -> string;
  localeCompare : string -> string -> Z   (* [s.localeCompare(t)] *)
}.

(** ** Numbers *)

(** [x - y] on numbers. *)
Definition num_sub (x y : JsNum) : JsNum :=
  match x, y with
  | NaN, _ | _, NaN => NaN
  | PosInf, PosInf => NaN
  | NegInf, NegInf => NaN
  | PosInf, _ => PosInf
  | NegInf, _ => NegInf
  | Fin _, PosInf => NegInf
  | Fin _, NegInf => PosInf
  | Fin a, Fin b => Fin (a - b)
  end.

(** [x !== 0] on a number. *)
Definition num_nonzero (x : JsNum) : bool :=
  match x with
  | Fin q => negb (Qeq_bool q 0)
  | _ => true
  end.

(** Truthiness of a number: [0] and [NaN] are falsy. *)
Definition num_truthy (x : JsNum) : bool :=
  match x with
  | NaN => false
  | Fin q => negb (Qeq_bool q 0)
  | _ => true
  end.

(** [x < y] on numbers; false as soon as one side is [NaN]. *)
Definition num_lt (x y : JsNum) : bool :=
  match x, y with
  | NaN, _ | _, NaN => false
  | _, NegInf => false
  | PosInf, _ => false
  | NegInf, _ => true
  | Fin _, PosInf => true
  | Fin a, Fin b => match a ?= b with Lt => true | _ => false end
  end%Q.

Definition num_is_nan (x : JsNum) : bool :=
  match x with NaN => true | _ => false end.

(** ** Strings *)

(** [s < t] on strings: code units, lexicographically. *)
Definition str_lt (s t : string) : bool := String.ltb s t.

Definition is_alnum (c : ascii) : bool :=
  let n := N_of_ascii c in
  ((65 <=? n) && (n <=? 90) || (97 <=? n) && (n <=? 122)
   || (48 <=? n) && (n <=? 57))%N.

(** The first [k] characters of [s] exist and are alphanumeric. *)
Fixpoint alnum_prefix (k : nat) (s : string) : bool :=
  match k with
  | O => true
  | S k' =>
      match s with
      | EmptyString => false
      | String c s' => is_alnum c && alnum_prefix k' s'
      end
  end.

(** [/[A-Za-z0-9]{16}/.test(s)]: the pattern is not anchored, so a match
    is tried at every position of [s]. *)
Fixpoint test_id_pattern (s : string) : bool :=
  alnum_prefix 16 s
  || match s with
     | EmptyString => false
     | String _ s' => test_id_pattern s'
     end.

(** ** Conversions and operators *)

Section Language.

Variable host : Host.

Fixpoint ToString (v : JsVal) : string :=
  match v with
  | JUndefined => "undefined"
  | JNull => "null"
  | JBool true => "true"
  | JBool false => "false"
  | JNumber n => NumberToString host n
  | JString s => s
  | JArray elems =>
      String.concat ","
        (map (fun e => match e with
                       | JUndefined | JNull => ""
                       | _ => ToString e
                       end) elems)
  | JObject _ => "[object Object]"
  end.

(** [ToPrimitive]: arrays and plain objects go through [toString]. *)
Definition ToPrimitive (v : JsVal) : JsVal :=
  match v with
  | JArray _ | JObject _ => JString (ToString v)
  | _ => v
  end.

(** [+v]. *)
Definition ToNumber (v : JsVal) : JsNum :=
  match ToPrimitive v with
  | JUndefined => NaN
  | JNull => Fin 0
  | JBool true => Fin 1
  | JBool false => Fin 0
  | JNumber n => n
  | JString s => StringToNumber host s
  | _ => NaN
  end.

Definition typeof (v : JsVal) : string :=
  match v with
  | JUndefined => "undefined"
  | JNull | JArray _ | JObject _ => "object"
  | JBool _ => "boolean"
  | JNumber _ => "number"
  | JString _ => "string"
  end.

Definition isArray (v : JsVal) : bool :=
  match v with JArray _ => true | _ => false end.

(** The value read as a condition. *)
Definition truthy (v : JsVal) : bool :=
  match v with
  | JUndefined | JNull => false
  | JBool b => b
  | JNumber n => num_truthy n
  | JString s => negb (String.eqb s "")
  | JArray _ | JObject _ => true
  end.

(** The host application's [Number.isNumeric]: false on arrays, on
    [null] and on the empty string, and otherwise [+n === +n]. *)
Definition isNumeric (n : JsVal) : bool :=
  match n with
  | JArray _ => false
  | JNull => false
  | JString "" => false
  | _ => negb (num_is_nan (ToNumber n))
  end.

(** [x > y]: both sides are made primitive; two strings are compared
    by code units, anything else as numbers. *)
Definition js_gt (x y : JsVal) : bool :=
  match ToPrimitive x, ToPrimitive y with
  | JString sx, JString sy => str_lt sy sx
  | px, py => num_lt (ToNumber py) (ToNumber px)
  end.

Fixpoint lookup {V : Type} (k : string) (o : list (string * V)) : option V :=
  match o with
  | [] => None
  | (k', v) :: o' => if (k' =? k)%string then Some v else lookup k o'
  end.

(** [v?.id] for a resolved value [v]. *)
Definition value_id (v : JsVal) : JsVal :=
  match v with
  | JObject props =>
      match lookup "id" props with Some x => x | None => JUndefined end
  | _ => JUndefined
  end.

(** [v[0]] for an array. *)
Definition first_elem (v : JsVal) : JsVal :=
  match v with
  | JArray (x :: _) => x
  | _ => JUndefined
  end.

End Language.

(** ** Data model *)

(** A combatant of the host's combat document: the fields the code reads
    by name, and the remaining attribute tree that a grouping path may
    walk into. [initiative] is a number or [null]. *)
Record Combatant : Type := {
  id : string;
  visible : bool;
  hidden : bool;
  hasPlayerOwner : bool;
  initiative : option JsNum;
  attributes : list (string * JsVal)
}.

(** The module's settings, as read through [game.settings.get(Ctg.ID, _)].
    An entry of [modes] is the pair [[name, path]]. *)
Record Settings : Type := {
  setting_sortCombatants : bool;
  setting_mode : string;
  setting_modes : list (string * string);
  setting_noGroupHidden : bool;
  setting_noGroupPCs : bool;
  setting_groupSkipping : bool
}.

(** The part of the host's global state that the core reads.
    [combat] is [game.combat?.turns]; [hiddenMobList] and [tokenCombatant]
    belong to the mob-attack-tool integration: the saved mobs, each with
    its [selectedTokenIds], and [canvas.scene?.tokens.get(id)?.combatant],
    which is [None] when the token or its combatant is missing. *)
Record Game : Type := {
  settings : Settings;
  combat : option (list Combatant);
  userIsGM : bool;
  mobAttackToolActive : bool;
  hiddenMobList : list (list string);
  tokenCombatant : string -> option Combatant
}.

(** [Ctg.MODES] *)
Definition MODES (game : Game) : list (string * string) :=
  setting_modes (settings game).

(** Host documents are compared by reference; a combat holds one object
    per identifier, so the reference is read off the identifier. *)
Definition same_document (a b : Combatant) : bool := (id a =? id b)%string.

(** [arr.findIndex(p)] *)
Fixpoint findIndex {A : Type} (p : A -> bool) (arr : list A) : Z :=
  match arr with
  | [] => -1
  | x :: xs =>
      if p x then 0
      else let i := findIndex p xs in if i <? 0 then -1 else i + 1
  end.

(** [turns.indexOf(a)], where [a] may be [undefined]. *)
Definition indexOf (turns : list Combatant) (a : option Combatant) : Z :=
  match a with
  | Some c => findIndex (same_document c) turns
  | None => -1
  end.

(** [game.combat?.turns.indexOf(a)] *)
Definition combat_indexOf (game : Game) (a : option Combatant) : JsVal :=
  match combat game with
  | Some turns => JNumber (Fin (inject_Z (indexOf turns a)))
  | None => JUndefined
  end.

(** [Ctg.MODES.find(m => m[0] === mode)] followed by [.slice(-1)[0]]
    (ctg.js:174 and 206): reading a member of [undefined] throws. *)
Definition path_of_mode (game : Game) (mode : string) : Completion string :=
  match find (fun m => (fst m =? mode)%string) (MODES game) with
  | Some m => Normal (snd m)
  | None => Throw TypeError
  end.

(** [a.id], [a?.id] and [a?.initiative] for a possibly [undefined] [a]. *)
Definition member_id (a : option Combatant) : Completion JsVal :=
  match a with
  | Some c => Normal (JString (id c))
  | None => Throw TypeError
  end.

Definition opt_id (a : option Combatant) : JsVal :=
  match a with
  | Some c => JString (id c)
  | None => JUndefined
  end.

Definition opt_initiative (a : option Combatant) : JsVal :=
  match a with
  | Some c =>
      match initiative c with
      | Some n => JNumber n
      | None => JNull
      end
  | None => JUndefined
  end.

(** ** The comparator *)

Section Comparator.

Variable host : Host.

(** [recursiveGetPropertyAsString] of [helpers.js], which is not part
    of the sources at hand: it is a parameter of the development. *)
Variable recursiveGetPropertyAsString : option Combatant -> string -> JsVal.

Variable game : Game.

(** The tests that select a branch of the comparator
    (ctg.js:212, 214, 218 and 223). *)
Definition both_boolean (ia ib : JsVal) : bool :=
  (typeof ia =? "boolean")%string && (typeof ib =? "boolean")%string.

Definition both_numeric (ia ib : JsVal) : bool :=
  isNumeric host ia && isNumeric host ib.

Definition both_object (ia ib : JsVal) : bool :=
  (typeof ia =? "object")%string && (typeof ib =? "object")%string.

Definition both_string (ia ib : JsVal) : bool :=
  (typeof ia =? "string")%string && (typeof ib =? "string")%string.

(** [Ctg.sortCombatants(a, b)], ctg.js:202-237. *)
Definition sortCombatants (a b : option Combatant) : Completion Z :=
  if setting_sortCombatants (settings game) then
    path <- path_of_mode game (setting_mode (settings game)) ;;
    let ia := recursiveGetPropertyAsString a path in
    let ib := recursiveGetPropertyAsString b path in
    if both_boolean ia ib then
      Normal (if truthy ia then 1 else -1)
    else if both_numeric ia ib then
      let ci := num_sub (ToNumber host ib) (ToNumber host ia) in
      if num_nonzero ci then Normal (if num_truthy ci then 1 else -1)
      else
        ida <- member_id a ;;
        idb <- member_id b ;;
        Normal (if js_gt host ida idb then 1 else -1)
    else if both_object ia ib then
      let ia := if isArray ia then first_elem ia else ia in
      let ib := if isArray ib then first_elem ib else ib in
      Normal (if js_gt host (value_id ia) (value_id ib) then 1 else -1)
    else if both_string ia ib then
      if test_id_pattern (ToString host ia) && test_id_pattern (ToString host ib)
      then
        Normal (if js_gt host (opt_initiative a) (opt_initiative b)
                then 1 else -1)
      else Normal (localeCompare host (ToString host ib) (ToString host ia))
    else
      Normal (if js_gt host (opt_id a) (opt_id b) then 1 else -1)
  else
    Normal (if js_gt host (combat_indexOf game a) (combat_indexOf game b)
            then 1 else -1).

End Comparator.

(** ** [Array.prototype.sort]

    A stable sort driven by the comparison function: a positive result
    places the first argument after the second. A throwing comparison
    aborts the sort. The engine is free in the sequence of comparisons
    it makes; this one inserts from the right. Under a comparison that
    is consistent every conforming engine returns the array this one
    returns. Under one that is not, as [Ctg.sortCombatants] is not in
    its numeric branch and on two equal booleans, the language leaves
    the order of the result to the engine, and an engine that compares
    in another sequence returns the same elements in another order.
    What is proved below about sorted arrays is either about their
    elements, whatever their order (same elements, same length), or
    about a comparison that is consistent (the turn order, the decimal
    strings of the turns below ten). *)

Section ArraySort.

Context {A : Type}.
Variable comparefn : A -> A -> Completion Z.

Fixpoint sort_insert (x : A) (sorted : list A) : Completion (list A) :=
  match sorted with
  | [] => Normal [x]
  | y :: rest =>
      v <- comparefn x y ;;
      if v <=? 0 then Normal (x :: y :: rest)
      else rest' <- sort_insert x rest ;; Normal (y :: rest')
  end.

Fixpoint sort (arr : list A) : Completion (list A) :=
  match arr with
  | [] => Normal []
  | x :: xs => sorted <- sort xs ;; sort_insert x sorted
  end.

(** Arrays with holes: [undefined] elements are moved to the end
    without being shown to the comparison function. *)
Fixpoint defined (arr : list (option A)) : list A :=
  match arr with
  | [] => []
  | Some x :: xs => x :: defined xs
  | None :: xs => defined xs
  end.

Definition sort_undefined_last (arr : list (option A))
  : Completion (list (option A)) :=
  sorted <- sort (defined arr) ;;
  Normal (map Some sorted
          ++ repeat None (List.length arr - List.length (defined arr))%nat).

End ArraySort.

(** ** Plain objects used as maps

    The accumulator of [Ctg.groups] is an object literal whose keys are
    created as the turn order is read. It is kept as the list of its own
    properties, in the order of their creation. Reading [o[k]] looks at
    the own properties first and then at what the literal inherits from
    [Object.prototype]. *)

(** The names that [Object.prototype] defines (ECMAScript, with the
    legacy accessors that browsers and Node carry). All of them hold
    functions, but [__proto__], whose getter yields [Object.prototype]
    itself. *)
Definition Object_prototype : list string :=
  ["constructor"; "hasOwnProperty"; "isPrototypeOf"; "propertyIsEnumerable";
   "toLocaleString"; "toString"; "valueOf"; "__proto__";
   "__defineGetter__"; "__defineSetter__";
   "__lookupGetter__"; "__lookupSetter__"].

(** [k in Object.prototype]. *)
Definition inherited (k : string) : bool :=
  existsb (String.eqb k) Object_prototype.

Section PlainObject.

Context {V : Type}.

(** [o[k] = v]: an existing key keeps its place, a new one goes last. *)
Fixpoint obj_set (k : string) (v : V) (o : list (string * V))
  : list (string * V) :=
  match o with
  | [] => [(k, v)]
  | (k', v') :: o' =>
      if (k' =? k)%string then (k', v) :: o'
      else (k', v') :: obj_set k v o'
  end.

Definition digit_of (c : ascii) : option N :=
  let n := N_of_ascii c in
  if ((48 <=? n) && (n <=? 57))%N then Some (n - 48)%N else None.

Fixpoint digits_value (acc : N) (s : string) : option N :=
  match s with
  | EmptyString => Some acc
  | String c s' =>
      match digit_of c with
      | Some d => digits_value (10 * acc + d)%N s'
      | None => None
      end
  end.

(** A key is an array index when it is the canonical decimal form of
    an integer below [2^32 - 1]. *)
Definition array_index (k : string) : option N :=
  match k with
  | EmptyString => None
  | String c rest =>
      if (Ascii.eqb c "0" && negb (String.eqb rest ""))%bool then None
      else
        match digits_value 0 k with
        | Some n => if (n <=? 4294967294)%N then Some n else None
        | None => None
        end
  end.

Fixpoint insert_index (e : N * V) (l : list (N * V)) : list (N * V) :=
  match l with
  | [] => [e]
  | e' :: l' =>
      if (fst e <=? fst e')%N then e :: e' :: l'
      else e' :: insert_index e l'
  end.

Fixpoint index_entries (o : list (string * V)) : list (N * V) :=
  match o with
  | [] => []
  | (k, v) :: o' =>
      match array_index k with
      | Some n => insert_index (n, v) (index_entries o')
      | None => index_entries o'
      end
  end.

Fixpoint named_entries (o : list (string * V)) : list V :=
  match o with
  | [] => []
  | (k, v) :: o' =>
      match array_index k with
      | Some _ => named_entries o'
      | None => v :: named_entries o'
      end
  end.

(** [Object.values(o)]: array-index keys in ascending order, then the
    other keys in the order they were created. *)
Definition Object_values (o : list (string * V)) : list V :=
  map snd (index_entries o) ++ named_entries o.

End PlainObject.

(** ** The group builder *)

(** What [Ctg.groups] shows to the user besides its result. *)
Inductive Event : Type :=
| Error_invalidMode (mode : string)   (* [ui.notifications.error] *)
| Warn_alreadyInMob (id : string).    (* [console.warn] *)

Section GroupBuilder.

Variable host : Host.
Variable recursiveGetPropertyAsString : option Combatant -> string -> JsVal.
Variable game : Game.

(** The conditions for grouping a combatant of the turn order
    (ctg.js:179-181). *)
Definition grouped (current : Combatant) : bool :=
  visible current
  && negb (setting_noGroupHidden (settings game) && hidden current)
  && negb (setting_noGroupPCs (settings game) && hasPlayerOwner current).

(** The callback of [turns.reduce] (ctg.js:177-186): the accumulator is
    a plain object whose keys are the resolved values, turned into
    property keys. [accumulator[key]] is the array filed under the key
    before; [undefined], replaced by [[]], under a key met for the first
    time; and, under a name of [Object.prototype], what the literal
    inherits there: a function, or the prototype itself, neither of
    which the spread can iterate. *)
Definition reducer (path : string)
           (accumulator : list (string * list Combatant))
           (current : Combatant) : Completion (list (string * list Combatant)) :=
  if grouped current then
    let key := ToString host (recursiveGetPropertyAsString (Some current) path) in
    match lookup key accumulator with
    | Some members => Normal (obj_set key (members ++ [current]) accumulator)
    | None =>
        if inherited key then Throw TypeError
        else Normal (obj_set key ([] ++ [current]) accumulator)
    end
  else Normal accumulator.

(** The [else] branch: groups by the property at the mode's path.
    [Object.values] of [undefined] (no combat) throws. *)
Definition path_groups (mode : string) : Completion (list (list Combatant)) :=
  path <- path_of_mode game mode ;;
  match combat game with
  | Some turns =>
      accumulator <- reduce (reducer path) turns [] ;;
      Normal (Object_values accumulator)
  | None => Throw TypeError
  end.

(** [sortByTurns]; without a combat the difference is [NaN], which a
    sort reads as [0]. *)
Definition sortByTurns (a b : Combatant) : Completion Z :=
  Normal match combat game with
         | Some turns => indexOf turns (Some a) - indexOf turns (Some b)
         | None => 0
         end.

(** The callback of [selectedTokenIds.filter] (ctg.js:164-170), run over
    one mob: it
    keeps the ids not seen before, records every id in [alreadyInMob]
    and warns about each repeated one. *)
Fixpoint filter_selected (alreadyInMob : list string) (ids : list string)
  : list string * (list string * list Event) :=
  match ids with
  | [] => ([], (alreadyInMob, []))
  | i :: rest =>
      let already := existsb (String.eqb i) alreadyInMob in
      let '(kept, (seen, log)) := filter_selected (alreadyInMob ++ [i]) rest in
      (if already then kept else i :: kept,
       (seen, (if already then [Warn_alreadyInMob i] else []) ++ log))
  end.

(** The first [map] over the saved mobs: token ids to combatants. *)
Fixpoint mob_members (alreadyInMob : list string) (mobs : list (list string))
  : list (list (option Combatant)) * list Event :=
  match mobs with
  | [] => ([], [])
  | selectedTokenIds :: rest =>
      let '(kept, (seen, log)) := filter_selected alreadyInMob selectedTokenIds in
      let '(arrs, log') := mob_members seen rest in
      (map (tokenCombatant game) kept :: arrs, log ++ log')
  end.

(** The mob branch (ctg.js:157-171): each saved mob becomes a group,
    sorted by turn and stripped of the tokens without a combatant. *)
Definition mob_groups : list Event * Completion (list (list Combatant)) :=
  let '(arrs, log) := mob_members [] (hiddenMobList game) in
  (log,
   mapM (fun arr => sorted <- sort_undefined_last sortByTurns arr ;;
                    Normal (defined sorted)) arrs).

(** The comparison functions of the two sorting passes:
    [this.sortCombatants] and [(a, b) => this.sortCombatants(a[0], b[0])]. *)
Definition compare_members (a b : Combatant) : Completion Z :=
  sortCombatants host recursiveGetPropertyAsString game (Some a) (Some b).

Definition compare_groups (a b : list Combatant) : Completion Z :=
  sortCombatants host recursiveGetPropertyAsString game (hd_error a) (hd_error b).

(** Sort each group, then the groups by their first combatant
    (ctg.js:189-192). *)
Definition sort_groups (groups : list (list Combatant))
  : Completion (list (list Combatant)) :=
  each <- mapM (sort compare_members) groups ;;
  sort compare_groups each.

(** [Ctg.groups(mode)], ctg.js:146-195. The result [None] is the
    [undefined] that the early [return] yields. *)
Definition groups (mode : string)
  : list Event * Completion (option (list (list Combatant))) :=
  if negb (existsb (String.eqb mode) (map fst (MODES game))) then
    ([Error_invalidMode mode], Normal None)
  else
    let '(log, built) :=
      if (mode =? "mob")%string && mobAttackToolActive game then mob_groups
      else ([], path_groups mode) in
    (log,
     unsorted <- built ;;
     result <- sort_groups unsorted ;;
     Normal (Some result)).

End GroupBuilder.

(** ** Group skipping *)

(** The combat document handed to the [preUpdateCombat] hook and the
    pending change. [null] fields are [None]. *)
Record CombatDocument : Type := {
  doc_turns : list Combatant;
  doc_turn : option Z;
  doc_current_round : option Z;
  doc_current_turn : option Z
}.

Record Change : Type := {
  change_turn : option Z;
  change_round : option Z
}.

(** [n.toString()] for an integer. *)
Definition Z_to_string (n : Z) : string := NilZero.string_of_int (Z.to_int n).

(** The comparison of [sort()] without an argument: by the strings. *)
Definition default_compare (x y : Z) : Completion Z :=
  let sx := Z_to_string x in
  let sy := Z_to_string y in
  Normal (if str_lt sx sy then -1 else if str_lt sy sx then 1 else 0).

(** [arr[i]] and [arr.at(i)] for an integer [i]. *)
Definition array_get {A : Type} (arr : list A) (i : Z) : option A :=
  if i <? 0 then None else nth_error arr (Z.to_nat i).

Definition array_at {A : Type} (arr : list A) (i : Z) : option A :=
  if i <? 0 then array_get arr (Z.of_nat (List.length arr) + i)
  else array_get arr i.

(** [x > y] where [null] reads as [0]. *)
Definition null_as_zero (x : option Z) : Z :=
  match x with Some n => n | None => 0 end.

(** [document.turns.findIndex(c => c.id === group[0].id)]: the callback
    reads a member of [undefined] when the group is empty, and is not
    called at all when there are no turns. *)
Definition first_turn_of (document : CombatDocument) (group : list Combatant)
  : Completion Z :=
  match group with
  | first :: _ =>
      Normal (findIndex (fun c => (id c =? id first)%string) (doc_turns document))
  | [] =>
      match doc_turns document with
      | [] => Normal (-1)
      | _ :: _ => Throw TypeError
      end
  end.

(** The turn of the first combatant of each group, sorted by [sort()]
    (ctg.js:439). *)
Definition firstTurns (document : CombatDocument) (groups : list (list Combatant))
  : Completion (list Z) :=
  indices <- mapM (first_turn_of document) groups ;;
  sort default_compare indices.

(** [undefined] when the current turn is not a first turn
    (ctg.js:442-445). *)
Definition indexOfCurrent (firstTurns : list Z) (turn : option Z) : option Z :=
  match turn with
  | Some t =>
      let i := findIndex (Z.eqb t) firstTurns in
      if negb (i =? -1) then Some i else None
  | None => None
  end.

(** [firstTurns?.[indexOfCurrent + direction] ?? firstTurns.at(...)]
    (ctg.js:448-449): [undefined + direction] is [NaN], which indexes
    nothing. *)
Definition nextTurn (firstTurns : list Z) (turn : option Z) (direction : Z)
  : option Z :=
  let found :=
    match indexOfCurrent firstTurns turn with
    | Some i => array_get firstTurns (i + direction)
    | None => None
    end in
  match found with
  | Some t => Some t
  | None => array_at firstTurns (if direction =? 1 then 0 else -1)
  end.

(** The direction of the change (ctg.js:435-436); a changed round takes
    precedence. *)
Definition direction_of (document : CombatDocument) (change : Change) : Z :=
  match change_round change with
  | Some r =>
      if negb (r =? 0) then
        if r >? null_as_zero (doc_current_round document) then 1 else -1
      else
        if null_as_zero (change_turn change)
           >? null_as_zero (doc_current_turn document) then 1 else -1
  | None =>
      if null_as_zero (change_turn change)
         >? null_as_zero (doc_current_turn document) then 1 else -1
  end.

Section GroupSkipping.

Variable host : Host.
Variable recursiveGetPropertyAsString : option Combatant -> string -> JsVal.
Variable game : Game.

(** The [preUpdateCombat] hook (ctg.js:423-456): the change it leaves
    behind. *)
Definition groupSkipping (document : CombatDocument) (change : Change)
  : list Event * Completion Change :=
  let mode := setting_mode (settings game) in
  let '(log, built) := groups host recursiveGetPropertyAsString game mode in
  (log,
   groups <- built ;;
   if userIsGM game
      && (match change_turn change with Some _ => true | None => false end)
      && setting_groupSkipping (settings game)
      && negb (mode =? "none")%string
   then
     match groups with
     | None => Throw TypeError
     | Some groups =>
         if (1 <? List.length groups)%nat then
           let direction := direction_of document change in
           firstTurns <- firstTurns document groups ;;
           Normal {| change_turn := nextTurn firstTurns (doc_turn document) direction;
                     change_round := change_round change |}
         else Normal change
     end
   else Normal change).

End GroupSkipping.

(** ** A concrete engine and resolver, for running the model

    The engine covers what the concrete combats below put to it:
    decimal numerals and a collation by code unit. *)

Module Reference.

(** A decimal literal: an optional sign, digits, an optional fraction. *)
Fixpoint read_fraction (num den : N) (s : string) : option (N * N) :=
  match s with
  | EmptyString => Some (num, den)
  | String c s' =>
      match digit_of c with
      | Some d => read_fraction (10 * num + d) (10 * den) s'
      | None => None
      end
  end.

Fixpoint read_decimal (seen : bool) (acc : N) (s : string) : option (N * N) :=
  match s with
  | EmptyString => if seen then Some (acc, 1%N) else None
  | String c s' =>
      match digit_of c with
      | Some d => read_decimal true (10 * acc + d) s'
      | None =>
          if (Ascii.eqb c "." && seen && negb (String.eqb s' ""))%bool
          then read_fraction acc 1 s'
          else None
      end
  end.

Definition unsigned_number (s : string) : JsNum :=
  if String.eqb s "Infinity" then PosInf
  else match read_decimal false 0 s with
       | Some (n, d) => Fin (Z.of_N n # N.succ_pos (N.pred d))
       | None => NaN
       end.

Definition negate (x : JsNum) : JsNum :=
  match x with
  | NaN => NaN
  | PosInf => NegInf
  | NegInf => PosInf
  | Fin q => Fin (- q)
  end.

(** Reads the plain decimal literals, without exponent, radix prefix or
    surrounding blanks; the empty string is [0]; a string that holds a
    letter, other than the literal [Infinity], is [NaN]. *)
Definition decimal_StringToNumber (s : string) : JsNum :=
  match s with
  | EmptyString => Fin 0
  | String "-" s' => negate (unsigned_number s')
  | String "+" s' => unsigned_number s'
  | _ => unsigned_number s
  end.

Fixpoint fraction_digits (fuel : nat) (r den : Z) : string :=
  match fuel with
  | O => ""
  | S fuel' =>
      if r =? 0 then ""
      else String (ascii_of_N (48 + Z.to_N (10 * r / den)))
                  (fraction_digits fuel' (10 * r mod den) den)
  end.

(** Prints integers, and the decimal expansion of other numbers up to
    twenty places. *)
Definition decimal_NumberToString (x : JsNum) : string :=
  match x with
  | NaN => "NaN"
  | PosInf => "Infinity"
  | NegInf => "-Infinity"
  | Fin q =>
      let n := Qnum q in
      let d := Zpos (Qden q) in
      let whole := Z.abs n / d in
      let rest := Z.abs n mod d in
      let sign := if n <? 0 then "-" else "" in
      let fraction := if rest =? 0 then ""
                      else String "." (fraction_digits 20 rest d) in
      String.append sign
        (String.append (NilZero.string_of_int (Z.to_int whole)) fraction)
  end.

(** A collation that orders by code unit. *)
Definition code_unit_localeCompare (s t : string) : Z :=
  match String.compare s t with
  | Lt => -1
  | Eq => 0
  | Gt => 1
  end.

Definition engine : Host := {|
  StringToNumber := decimal_StringToNumber;
  NumberToString := decimal_NumberToString;
  localeCompare := code_unit_localeCompare
|}.

(** The combatant as the object the resolver walks. *)
Definition combatant_object (c : Combatant) : JsVal :=
  JObject ([("id", JString (id c));
            ("visible", JBool (visible c));
            ("hidden", JBool (hidden c));
            ("hasPlayerOwner", JBool (hasPlayerOwner c));
            ("initiative", match initiative c with
                           | Some n => JNumber n
                           | None => JNull
                           end)]
           ++ attributes c).

Fixpoint split_dots (segment : string) (path : string) : list string :=
  match path with
  | EmptyString => [segment]
  | String c rest =>
      if Ascii.eqb c "." then segment :: split_dots "" rest
      else split_dots (segment ++ String c "")%string rest
  end.

Definition get_field (v : JsVal) (name : string) : JsVal :=
  match v with
  | JObject props =>
      match lookup name props with Some x => x | None => JUndefined end
  | JArray elems =>
      match array_index name with
      | Some n => nth (N.to_nat n) elems JUndefined
      | None => JUndefined
      end
  | _ => JUndefined
  end.

(** Modelled from the spec: [recursiveGetPropertyAsString] of
    [helpers.js] is not among the sources. The spec's PathResolver takes
    a dot-delimited sequence of field names and "walks the record field
    by field, short-circuiting to undefined if any intermediate segment
    is absent", arrays and nested objects alike, and never throws. *)
Definition resolve (record : option Combatant) (path : string) : JsVal :=
  fold_left get_field (split_dots "" path)
            match record with
            | Some c => combatant_object c
            | None => JUndefined
            end.

End Reference.

(** ** Statement vocabulary *)

(** The two results of a pair of calls are opposite: one is [1] and the
    other is [-1]. *)
Definition opposite (r1 r2 : Completion Z) : Prop :=
  (r1 = Normal 1 /\ r2 = Normal (-1)) \/ (r1 = Normal (-1) /\ r2 = Normal 1).

(** A comparison result that places its first argument before the second. *)
Definition precedes (r : Completion Z) : Prop :=
  exists v, r = Normal v /\ v < 0.

(** A combatant is left out of the groups when it is not visible, or is
    hidden while hidden combatants are not grouped, or belongs to a
    player while player characters are not grouped. *)
Definition skipped (game : Game) (c : Combatant) : bool :=
  negb (visible c)
  || (setting_noGroupHidden (settings game) && hidden c)
  || (setting_noGroupPCs (settings game) && hasPlayerOwner c).

(** The situations in which one call of the comparator on [a] and [b]
    is settled by a strict difference between the two combatants: the
    turn positions when sorting is off; otherwise, along the branches,
    two unlike booleans, the identifiers after a numeric tie, the string
    identifiers of two composite values, two unlike finite initiatives
    under identifier-like strings, and the identifiers in the fallback. *)
Inductive Decisive (host : Host)
          (resolve : option Combatant -> string -> JsVal)
          (game : Game) (a b : Combatant) : Prop :=
| decided_by_turn_order (turns : list Combatant) :
    setting_sortCombatants (settings game) = false ->
    combat game = Some turns ->
    indexOf turns (Some a) <> indexOf turns (Some b) ->
    Decisive host resolve game a b
| decided_by_booleans (path : string) (x y : bool) :
    setting_sortCombatants (settings game) = true ->
    path_of_mode game (setting_mode (settings game)) = Normal path ->
    resolve (Some a) path = JBool x ->
    resolve (Some b) path = JBool y ->
    x <> y ->
    Decisive host resolve game a b
| decided_by_identifier_tie (path : string) :
    setting_sortCombatants (settings game) = true ->
    path_of_mode game (setting_mode (settings game)) = Normal path ->
    both_boolean (resolve (Some a) path) (resolve (Some b) path) = false ->
    both_numeric host (resolve (Some a) path) (resolve (Some b) path) = true ->
    num_nonzero (num_sub (ToNumber host (resolve (Some b) path))
                         (ToNumber host (resolve (Some a) path))) = false ->
    id a <> id b ->
    Decisive host resolve game a b
| decided_by_element_ids (path : string) (sa sb : string) :
    setting_sortCombatants (settings game) = true ->
    path_of_mode game (setting_mode (settings game)) = Normal path ->
    both_numeric host (resolve (Some a) path) (resolve (Some b) path) = false ->
    both_object (resolve (Some a) path) (resolve (Some b) path) = true ->
    value_id (if isArray (resolve (Some a) path)
              then first_elem (resolve (Some a) path)
              else resolve (Some a) path) = JString sa ->
    value_id (if isArray (resolve (Some b) path)
              then first_elem (resolve (Some b) path)
              else resolve (Some b) path) = JString sb ->
    sa <> sb ->
    Decisive host resolve game a b
| decided_by_initiative (path : string) (sa sb : string) (x y : Q) :
    setting_sortCombatants (settings game) = true ->
    path_of_mode game (setting_mode (settings game)) = Normal path ->
    resolve (Some a) path = JString sa ->
    resolve (Some b) path = JString sb ->
    both_numeric host (JString sa) (JString sb) = false ->
    test_id_pattern sa = true ->
    test_id_pattern sb = true ->
    initiative a = Some (Fin x) ->
    initiative b = Some (Fin y) ->
    ~ (x == y)%Q ->
    Decisive host resolve game a b
| decided_by_fallback (path : string) :
    setting_sortCombatants (settings game) = true ->
    path_of_mode game (setting_mode (settings game)) = Normal path ->
    both_boolean (resolve (Some a) path) (resolve (Some b) path) = false ->
    both_numeric host (resolve (Some a) path) (resolve (Some b) path) = false ->
    both_object (resolve (Some a) path) (resolve (Some b) path) = false ->
    both_string (resolve (Some a) path) (resolve (Some b) path) = false ->
    id a <> id b ->
    Decisive host resolve game a b.

(** ** Concrete combats *)

Module Examples.

Import Reference.

(** A visible combatant that is neither hidden nor owned by a player. *)
Definition npc (i : string) (init : Z) (attrs : list (string * JsVal))
  : Combatant :=
  {| id := i; visible := true; hidden := false; hasPlayerOwner := false;
     initiative := Some (Fin (inject_Z init)); attributes := attrs |}.

Definition modes : list (string * string) :=
  [("none", ""); ("initiative", "initiative"); ("name", "name");
   ("selection", "flags.ctg.group"); ("hidden", "hidden"); ("mob", "")].

(** Sorting and group skipping enabled, nothing excluded from grouping. *)
Definition preferences (mode : string) : Settings :=
  {| setting_sortCombatants := true; setting_mode := mode;
     setting_modes := modes; setting_noGroupHidden := false;
     setting_noGroupPCs := false; setting_groupSkipping := true |}.

Definition table (mode : string) (turns : list Combatant) : Game :=
  {| settings := preferences mode; combat := Some turns; userIsGM := true;
     mobAttackToolActive := false; hiddenMobList := [];
     tokenCombatant := fun _ => None |}.

Definition selection (uid : string) : list (string * JsVal) :=
  [("flags", JObject [("ctg", JObject [("group", JString uid)])])].

(** Initiatives 20 and 10. *)
Definition fast : Combatant := npc "A" 20 [].
Definition slow : Combatant := npc "B" 10 [].

(** Two goblins and an orc. *)
Definition goblin1 : Combatant := npc "G1" 12 [("name", JString "Goblin")].
Definition goblin2 : Combatant := npc "G2" 7 [("name", JString "Goblin")].
Definition orc : Combatant := npc "O1" 15 [("name", JString "Orc")].

(** Two combatants selected into the same group, whose flag holds the
    sixteen-character identifier of that group. *)
Definition picked_hi : Combatant := npc "A" 20 (selection "aZ3kLp9QmN21xTy8").
Definition picked_lo : Combatant := npc "B" 10 (selection "aZ3kLp9QmN21xTy8").

(** A saved mob whose only token has no combatant in the combat at hand. *)
Definition mob_table : Game :=
  {| settings := preferences "mob"; combat := Some [fast; slow];
     userIsGM := true; mobAttackToolActive := true;
     hiddenMobList := [["token1"]];
     tokenCombatant := fun _ => None |}.

(** Eleven combatants [c0 .. c10] in turn order, grouped as
    [c0..c4], [c5..c9] and [c10]. *)
Definition eleven : list Combatant :=
  map (fun n => npc (String.append "c" (Z_to_string n)) (20 - n) [])
      [0; 1; 2; 3; 4; 5; 6; 7; 8; 9; 10].

Definition eleven_document : CombatDocument :=
  {| doc_turns := eleven; doc_turn := Some 5;
     doc_current_round := Some 1; doc_current_turn := Some 5 |}.

Definition three_groups : list (list Combatant) :=
  [firstn 5 eleven; firstn 5 (skipn 5 eleven); skipn 10 eleven].

(** The same eleven combatants, named after their squads. *)
Definition squads : list Combatant :=
  map (fun n => npc (String.append "c" (Z_to_string n)) (20 - n)
                    [("name", JString (if n <? 5 then "Alpha"
                                       else if n <? 10 then "Beta"
                                       else "Gamma"))])
      [0; 1; 2; 3; 4; 5; 6; 7; 8; 9; 10].

Definition squads_document : CombatDocument :=
  {| doc_turns := squads; doc_turn := Some 5;
     doc_current_round := Some 1; doc_current_turn := Some 5 |}.

End Examples.

(** ** Managing the modes *)

(** The other modules whose presence [manageModes] looks at. *)
Record Modules : Type := {
  lancerInitiativeActive : bool;
  scsActive : bool
}.

(** The host's [Array.prototype.findSplice(find)]: the first element
    that satisfies [find] is taken out of the array. *)
Fixpoint findSplice {A : Type} (find : A -> bool) (arr : list A) : list A :=
  match arr with
  | [] => []
  | x :: xs => if find x then xs else x :: findSplice find xs
  end.

(** [modes.find(m => m[0] === key)], read as a condition. *)
Definition has_mode (key : string) (modes : list (string * string)) : bool :=
  existsb (fun m => (fst m =? key)%string) modes.

(** [manageModes()], ctg.js:240-257: the array handed to [Ctg.setMODES]
    and, when the saved mode is gone from it, the value the mode setting
    is set to. *)
Definition manageModes (modules : Modules) (game : Game)
  : list (string * string) * option string :=
  let modes := MODES game in
  let modes :=
    if mobAttackToolActive game && negb (has_mode "mob" modes)
    then modes ++ [("mob", "")] else modes in
  let modes :=
    if lancerInitiativeActive modules && negb (has_mode "lancer" modes)
    then modes ++ [("lancer", "activations.value")] else modes in
  let modes :=
    if scsActive modules
    then findSplice (fun m => (fst m =? "initiative")%string) modes
    else modes in
  (modes,
   if negb (has_mode (setting_mode (settings game)) modes)
   then Some "none" else None).

(** The settings once both writes of [manageModes] have taken effect. *)
Definition with_modes (game : Game) (managed : list (string * string) * option string)
  : Game :=
  {| settings :=
       {| setting_sortCombatants := setting_sortCombatants (settings game);
          setting_mode := match snd managed with
                          | Some mode => mode
                          | None => setting_mode (settings game)
                          end;
          setting_modes := fst managed;
          setting_noGroupHidden := setting_noGroupHidden (settings game);
          setting_noGroupPCs := setting_noGroupPCs (settings game);
          setting_groupSkipping := setting_groupSkipping (settings game) |};
     combat := combat game;
     userIsGM := userIsGM game;
     mobAttackToolActive := mobAttackToolActive game;
     hiddenMobList := hiddenMobList game;
     tokenCombatant := tokenCombatant game |}.

(** ** Rolling initiative for groups *)

(** What becomes of one group in one pass of the wrapper: the updates
    sent to the combat, with whether the dice sound is played; nothing;
    or a rejected callback, when the first member of an empty group is
    asked for its roll. *)
Inductive RollOutcome : Type :=
| Rolled (updates : list (string * JsNum)) (sound : bool)
| NotRolled
| Rejected (e : JsError).

(** What the wrapper does with a call: it hands it over to the wrapped
    method, or rolls by group, once for each id. *)
Inductive WrapperResult : Type :=
| CallsWrapped (ids : list string)
| RollsGroups (log : list Event) (passes : Completion (list (list RollOutcome))).

(** [isRollForGroupInitiative()], ctg.js:472-480. [keybind] is
    [Ctg.groupInitiativeKeybind], [None] while it is undefined;
    [modifierDown] tells whether Control or Shift is held. *)
Definition isRollForGroupInitiative (game : Game) (keybind : option bool)
           (modifierDown : bool) : bool :=
  negb (setting_mode (settings game) =? "none")%string
  && match keybind with
     | Some held => held
     | None => modifierDown
     end.

Section GroupInitiative.

Variable host : Host.
Variable recursiveGetPropertyAsString : option Combatant -> string -> JsVal.
Variable game : Game.

(** [combatant.isNPC], a getter of the host's document. *)
Variable isNPC : Combatant -> bool.

(** [message.roll.total] of the roll made for the group at position
    [index] in the pass for the id at position [pass]. *)
Variable total : nat -> nat -> JsNum.

(** The callback run on one group, ctg.js:498-527. *)
Definition roll_group (context : string) (pass : nat) (i : string)
           (index : nat) (group : list Combatant) : RollOutcome :=
  if (context =? "rollAll")%string
     || ((context =? "rollNPC")%string && forallb isNPC group)
     || ((context =? "roll")%string
         && existsb (fun combatant => (id combatant =? i)%string) group)
  then
    match group with
    | [] => Rejected TypeError
    | _ :: _ =>
        Rolled (map (fun combatant => (id combatant, total pass index)) group)
               (index =? 0)%nat
    end
  else NotRolled.

Fixpoint roll_groups (context : string) (pass : nat) (i : string)
         (index : nat) (groups : list (list Combatant)) : list RollOutcome :=
  match groups with
  | [] => []
  | group :: rest =>
      roll_group context pass i index group
      :: roll_groups context pass i (S index) rest
  end.

(** One pass of [ids.forEach]: the groups are built anew, and [forEach]
    of [undefined] throws. *)
Definition roll_pass (context : string) (pass : nat) (i : string)
  : list Event * Completion (list RollOutcome) :=
  let '(log, built) :=
    groups host recursiveGetPropertyAsString game
           (setting_mode (settings game)) in
  (log,
   groups <- built ;;
   match groups with
   | Some groups => Normal (roll_groups context pass i 0 groups)
   | None => Throw TypeError
   end).

Fixpoint roll_passes (context : string) (pass : nat) (ids : list string)
  : list Event * Completion (list (list RollOutcome)) :=
  match ids with
  | [] => ([], Normal [])
  | i :: rest =>
      let '(log, outcome) := roll_pass context pass i in
      match outcome with
      | Normal outcomes =>
          let '(log', others) := roll_passes context (S pass) rest in
          (log ++ log', others' <- others ;; Normal (outcomes :: others'))
      | Throw e => (log, Throw e)
      end
  end.

(** [groupInitiativeWrapper(context, wrapped, ids)], ctg.js:492-530;
    [ids] is [None] when the argument is left out. *)
Definition groupInitiativeWrapper (keybind : option bool) (modifierDown : bool)
           (context : string) (ids : option (list string)) : WrapperResult :=
  let ids := match ids with Some ids => ids | None => [""] end in
  if isRollForGroupInitiative game keybind modifierDown then
    let '(log, passes) := roll_passes context 0 ids in
    RollsGroups log passes
  else CallsWrapped ids.

End GroupInitiative.

(** ** Grouping the selected tokens *)

(** A controlled token: [token.inCombat], and the id of
    [token.combatant], [None] when there is no combatant. *)
Record Token : Type := {
  inCombat : bool;
  combatantId : option string
}.

(** The callback of [canvas.tokens.controlled.forEach], ctg.js:569-575. *)
Definition add_selection_update (uid : string)
           (updates : Completion (list (string * string))) (token : Token)
  : Completion (list (string * string)) :=
  updates <- updates ;;
  if inCombat token then
    match combatantId token with
    | Some i =>
        if negb (existsb (fun u => (fst u =? i)%string) updates)
        then Normal (updates ++ [(i, uid)])
        else Normal updates
    | None => Throw TypeError
    end
  else Normal updates.

(** The [controlToken] hook, ctg.js:561-581, for the identifier [uid]
    drawn by [randomID(16)]: the updates sent to the combat, [None] when
    nothing is sent. *)
Definition controlToken (uid : string) (controlledTokens : list Token)
           (controlled selectGroups : bool)
  : Completion (option (list (string * string))) :=
  if (0 <? List.length controlledTokens)%nat && controlled && selectGroups then
    updates <- fold_left (add_selection_update uid) controlledTokens (Normal []) ;;
    Normal (Some updates)
  else Normal None.

(** ** Vocabulary for the further properties *)

(** The property key under which [Ctg.groups] files a combatant. *)
Definition bucket_key (host : Host)
           (resolve : option Combatant -> string -> JsVal)
           (path : string) (c : Combatant) : string :=
  ToString host (resolve (Some c) path).

(** [a] does not come after [b] in the turn order. *)
Definition turn_le (turns : list Combatant) (a b : Combatant) : Prop :=
  indexOf turns (Some a) <= indexOf turns (Some b).

(** A group whose first member does not come after the first member of
    the other group; an empty group has no first member and counts as
    position [-1]. *)
Definition first_turn_le (turns : list Combatant) (g1 g2 : list Combatant) : Prop :=
  indexOf turns (hd_error g1) <= indexOf turns (hd_error g2).

(** Groups filed under keys: each group has a key of its own, which is
    the key of all its members. *)
Definition keyed_groups (key : Combatant -> string)
           (groups : list (list Combatant)) : Prop :=
  exists keys,
    NoDup keys
    /\ Forall2 (fun group k => Forall (fun c => key c = k) group) groups keys.

(** A comparison function agrees with the order [le] on the elements of
    an array: it returns, a result that is not positive only when the
    first argument is below the second, and a positive one only when the
    second is below the first. *)
Definition agrees {A : Type} (comparefn : A -> A -> Completion Z)
           (le : A -> A -> Prop) (l : list A) : Prop :=
  forall x y, In x l -> In y l ->
    exists v, comparefn x y = Normal v
              /\ (v <= 0 -> le x y) /\ (0 < v -> le y x).

(** ** Further concrete combats *)

Module MoreExamples.

(** The table of [Examples.table] with sorting switched off. *)
Definition unsorted_table (mode : string) (turns : list Combatant) : Game :=
  {| settings :=
       {| setting_sortCombatants := false; setting_mode := mode;
          setting_modes := Examples.modes; setting_noGroupHidden := false;
          setting_noGroupPCs := false; setting_groupSkipping := true |};
     combat := Some turns; userIsGM := true;
     mobAttackToolActive := false; hiddenMobList := [];
     tokenCombatant := fun _ => None |}.

(** A combatant that is not visible. *)
Definition unseen : Combatant :=
  {| id := "U1"; visible := false; hidden := true; hasPlayerOwner := false;
     initiative := None; attributes := [("name", JString "Ghost")] |}.

(** A combatant named after a method of every object. *)
Definition builder : Combatant :=
  Examples.npc "K1" 9 [("name", JString "constructor")].

(** Two saved mobs that share the token [t2]; the tokens [t1], [t2] and
    [t3] stand for the two goblins and the orc. *)
Definition mobs_table : Game :=
  {| settings := Examples.preferences "mob";
     combat := Some [Examples.goblin1; Examples.orc; Examples.goblin2];
     userIsGM := true; mobAttackToolActive := true;
     hiddenMobList := [["t2"; "t1"]; ["t2"; "t3"; "t4"]];
     tokenCombatant := fun token =>
       if (token =? "t1")%string then Some Examples.goblin1
       else if (token =? "t2")%string then Some Examples.goblin2
       else if (token =? "t3")%string then Some Examples.orc
       else None |}.

End MoreExamples.

(** * Properties *)

(** ** Completions *)

Lemma bind_Normal {A B : Type} (c : Completion A) (k : A -> Completion B) (y : B) :
  bind c k = Normal y -> exists x, c = Normal x /\ k x = Normal y.
Proof.
  destruct c as [x | e]; simpl; intros H.
  - exists x. split; [reflexivity | exact H].
  - discriminate H.
Qed.

Lemma mapM_Forall2 {A B : Type} (f : A -> Completion B) (l : list A) (l' : list B) :
  mapM f l = Normal l' -> Forall2 (fun x y => f x = Normal y) l l'.
Proof.
  revert l'. induction l as [| x xs IH]; simpl; intros l' H.
  - injection H as <-. constructor.
  - apply bind_Normal in H as (y & Hy & H).
    apply bind_Normal in H as (ys & Hys & H).
    injection H as <-. constructor; auto.
Qed.

Lemma mapM_total {A B : Type} (f : A -> Completion B) (l : list A) :
  Forall (fun x => exists y, f x = Normal y) l -> exists l', mapM f l = Normal l'.
Proof.
  induction 1 as [| x xs (y & Hy) _ (ys & Hys)]; simpl.
  - eexists. reflexivity.
  - rewrite Hy, Hys. simpl. eexists. reflexivity.
Qed.

(** ** Sorting keeps the elements *)

Section SortFacts.

Context {A : Type}.
Variable comparefn : A -> A -> Completion Z.

Lemma sort_insert_Permutation (x : A) (l l' : list A) :
  sort_insert comparefn x l = Normal l' -> Permutation (x :: l) l'.
Proof.
  revert l'. induction l as [| y rest IH]; simpl; intros l' H.
  - injection H as <-. apply Permutation_refl.
  - apply bind_Normal in H as (v & _ & H).
    destruct (v <=? 0).
    + injection H as <-. apply Permutation_refl.
    + apply bind_Normal in H as (rest' & Hrest & H).
      injection H as <-.
      apply perm_trans with (y :: x :: rest); [apply perm_swap |].
      apply perm_skip. apply IH. exact Hrest.
Qed.

Lemma sort_Permutation (l l' : list A) :
  sort comparefn l = Normal l' -> Permutation l l'.
Proof.
  revert l'. induction l as [| x xs IH]; simpl; intros l' H.
  - injection H as <-. apply Permutation_refl.
  - apply bind_Normal in H as (sorted & Hs & H).
    apply sort_insert_Permutation in H.
    apply perm_trans with (x :: sorted); [| exact H].
    apply perm_skip. apply IH. exact Hs.
Qed.

Lemma sort_insert_total (x : A) (l : list A) :
  (forall y, In y l -> exists v, comparefn x y = Normal v) ->
  exists l', sort_insert comparefn x l = Normal l'.
Proof.
  induction l as [| y rest IH]; simpl; intros Hc.
  - eexists. reflexivity.
  - destruct (Hc y (or_introl eq_refl)) as (v & Hv). rewrite Hv. simpl.
    destruct (v <=? 0).
    + eexists. reflexivity.
    + destruct IH as (rest' & Hrest); [intros z Hz; apply Hc; right; exact Hz |].
      rewrite Hrest. simpl. eexists. reflexivity.
Qed.

Lemma sort_total (l : list A) :
  (forall x y, In x l -> In y l -> exists v, comparefn x y = Normal v) ->
  exists l', sort comparefn l = Normal l'.
Proof.
  induction l as [| x xs IH]; simpl; intros Hc.
  - eexists. reflexivity.
  - destruct IH as (sorted & Hs).
    { intros y z Hy Hz. apply Hc; right; assumption. }
    rewrite Hs. simpl. apply sort_insert_total.
    intros y Hy. apply Hc; [left; reflexivity | right].
    apply Permutation_in with (l := sorted); [| exact Hy].
    apply Permutation_sym, sort_Permutation, Hs.
Qed.

End SortFacts.

(** ** Flattening groups *)

Lemma concat_Permutation {A : Type} (l l' : list (list A)) :
  Permutation l l' -> Permutation (concat l) (concat l').
Proof.
  induction 1 as [| x l l' _ IH | x y l | l l' l'' _ IH1 _ IH2]; simpl.
  - apply Permutation_refl.
  - apply Permutation_app_head. exact IH.
  - rewrite !app_assoc. apply Permutation_app_tail, Permutation_app_comm.
  - apply perm_trans with (concat l'); assumption.
Qed.

Lemma concat_Forall2_Permutation {A : Type} (l l' : list (list A)) :
  Forall2 (@Permutation A) l l' -> Permutation (concat l) (concat l').
Proof.
  induction 1 as [| x y l l' Hxy _ IH]; simpl.
  - apply Permutation_refl.
  - apply Permutation_app; assumption.
Qed.

(** ** Plain objects *)

Section PlainObjectFacts.

Context {V : Type}.

Lemma insert_index_Permutation (e : N * V) (l : list (N * V)) :
  Permutation (insert_index e l) (e :: l).
Proof.
  induction l as [| e' l IH]; simpl.
  - apply Permutation_refl.
  - destruct (fst e <=? fst e')%N.
    + apply Permutation_refl.
    + apply perm_trans with (e' :: e :: l); [apply perm_skip, IH | apply perm_swap].
Qed.

Lemma Object_values_Permutation (o : list (string * V)) :
  Permutation (Object_values o) (map snd o).
Proof.
  unfold Object_values.
  induction o as [| [k v] o IH]; simpl.
  - apply Permutation_refl.
  - destruct (array_index k) as [n |].
    + apply perm_trans with (map snd ((n, v) :: index_entries o) ++ named_entries o).
      * apply Permutation_app_tail, Permutation_map, insert_index_Permutation.
      * simpl. apply perm_skip, IH.
    + apply Permutation_sym, Permutation_cons_app, Permutation_sym, IH.
Qed.

End PlainObjectFacts.

Lemma obj_set_append_Permutation {A : Type} (k : string) (x : A)
      (o : list (string * list A)) :
  Permutation
    (concat (map snd (obj_set k
       (match lookup k o with Some m => m | None => [] end ++ [x]) o)))
    (x :: concat (map snd o)).
Proof.
  induction o as [| [k' v'] o IH]; simpl.
  - apply Permutation_refl.
  - destruct (k' =? k)%string; simpl.
    + rewrite <- app_assoc. simpl. apply Permutation_sym, Permutation_middle.
    + apply perm_trans with (v' ++ x :: concat (map snd o)).
      * apply Permutation_app_head, IH.
      * apply Permutation_sym, Permutation_middle.
Qed.

Lemma obj_set_append_nonempty {A : Type} (k : string) (x : A)
      (o : list (string * list A)) :
  Forall (fun g => g <> []) (map snd o) ->
  Forall (fun g => g <> [])
    (map snd (obj_set k
       (match lookup k o with Some m => m | None => [] end ++ [x]) o)).
Proof.
  induction o as [| [k' v'] o IH]; simpl; intros H.
  - constructor; [discriminate | constructor].
  - inversion H as [| ? ? Hv Ho]; subst.
    destruct (k' =? k)%string; simpl; constructor; auto.
    intros E. apply app_eq_nil in E as [_ E]. discriminate E.
Qed.

Lemma obj_set_keys {V : Type} (k : string) (v : V) (o : list (string * V)) (x : string) :
  In x (map fst (obj_set k v o)) -> x = k \/ In x (map fst o).
Proof.
  induction o as [| [k' v'] o IH]; simpl.
  - intros [<- | []]. left. reflexivity.
  - destruct (k' =? k)%string; simpl.
    + intros H. right. exact H.
    + intros [<- | H]; [right; left; reflexivity |].
      destruct (IH H) as [-> | Hin]; [left; reflexivity | right; right; exact Hin].
Qed.

(** ** The comparator returns on two combatants *)

Section ComparatorFacts.

Variable host : Host.
Variable recursiveGetPropertyAsString : option Combatant -> string -> JsVal.
Variable game : Game.

Ltac split_ifs :=
  repeat match goal with
         | |- context [if ?c then _ else _] => destruct c
         end.

(** The comparator can only throw while looking up the active mode or
    while reading [a.id] of an [undefined] argument. *)
Lemma sortCombatants_returns (a b : Combatant) :
  setting_sortCombatants (settings game) = false
  \/ In (setting_mode (settings game)) (map fst (MODES game)) ->
  exists v, sortCombatants host recursiveGetPropertyAsString game
                           (Some a) (Some b) = Normal v.
Proof.
  intros H. unfold sortCombatants.
  destruct (setting_sortCombatants (settings game)) eqn:Hs.
  - destruct H as [H | H]; [discriminate H |].
    unfold path_of_mode.
    destruct (find _ (MODES game)) as [m |] eqn:Hf.
    + simpl. split_ifs; simpl; eexists; reflexivity.
    + exfalso. apply in_map_iff in H as ((k & p) & Hk & Hin).
      apply (find_none _ _ Hf) in Hin. simpl in Hk, Hin. subst k.
      rewrite String.eqb_refl in Hin. discriminate Hin.
  - split_ifs; eexists; reflexivity.
Qed.

End ComparatorFacts.

(** ** Groups by path *)

Section GroupFacts.

Variable host : Host.
Variable recursiveGetPropertyAsString : option Combatant -> string -> JsVal.
Variable game : Game.

(** What a returning call of the callback has done: nothing for a
    combatant that is not grouped; otherwise it has filed the combatant
    under its key, which is not a name of [Object.prototype] unless an
    own property of that name is there already. *)
Lemma reducer_Normal (path : string) (c : Combatant)
      (acc acc' : list (string * list Combatant)) :
  reducer host recursiveGetPropertyAsString game path acc c = Normal acc' ->
  (grouped game c = false /\ acc' = acc)
  \/ (grouped game c = true
      /\ (inherited (bucket_key host recursiveGetPropertyAsString path c) = true ->
          In (bucket_key host recursiveGetPropertyAsString path c) (map fst acc))
      /\ acc' = obj_set (bucket_key host recursiveGetPropertyAsString path c)
                  (match lookup (bucket_key host recursiveGetPropertyAsString path c) acc
                   with Some m => m | None => [] end ++ [c]) acc).
Proof.
  unfold reducer, bucket_key. destruct (grouped game c).
  - destruct (lookup _ acc) as [members |] eqn:Hl.
    + intros H. injection H as <-. right.
      split; [reflexivity |]. split; [| reflexivity].
      intros _. clear - Hl. induction acc as [| [k v] acc IH]; simpl in *.
      * discriminate Hl.
      * destruct (k =? _)%string eqn:E.
        -- left. apply String.eqb_eq, E.
        -- right. apply IH, Hl.
    + destruct (inherited _) eqn:Hi; [discriminate |].
      intros H. injection H as <-. right.
      split; [reflexivity |]. split; [discriminate | reflexivity].
  - intros H. injection H as <-. left. split; reflexivity.
Qed.

Lemma reduce_reducer_Permutation (path : string) (turns : list Combatant)
      (acc acc' : list (string * list Combatant)) :
  reduce (reducer host recursiveGetPropertyAsString game path) turns acc = Normal acc' ->
  Permutation (concat (map snd acc'))
              (concat (map snd acc) ++ filter (grouped game) turns).
Proof.
  revert acc. induction turns as [| current rest IH]; intros acc H; simpl in *.
  - injection H as <-. rewrite app_nil_r. apply Permutation_refl.
  - apply bind_Normal in H as (acc1 & H1 & H).
    eapply perm_trans; [apply IH, H |].
    apply reducer_Normal in H1 as [[-> ->] | (-> & _ & ->)].
    + apply Permutation_refl.
    + eapply perm_trans.
      * apply Permutation_app_tail, obj_set_append_Permutation.
      * simpl. apply Permutation_middle.
Qed.

Lemma reduce_reducer_nonempty (path : string) (turns : list Combatant)
      (acc acc' : list (string * list Combatant)) :
  reduce (reducer host recursiveGetPropertyAsString game path) turns acc = Normal acc' ->
  Forall (fun g => g <> []) (map snd acc) ->
  Forall (fun g => g <> []) (map snd acc').
Proof.
  revert acc. induction turns as [| current rest IH]; intros acc H Hne; simpl in *.
  - injection H as <-. exact Hne.
  - apply bind_Normal in H as (acc1 & H1 & H).
    apply (IH _ H).
    apply reducer_Normal in H1 as [[_ ->] | (_ & _ & ->)].
    + exact Hne.
    + apply obj_set_append_nonempty, Hne.
Qed.

(** A reduction that returns has met no grouped combatant whose key is a
    name of [Object.prototype], as long as the accumulator it started
    from had no such own property. *)
Lemma reduce_reducer_own_keys (path : string) (turns : list Combatant)
      (acc acc' : list (string * list Combatant)) :
  reduce (reducer host recursiveGetPropertyAsString game path) turns acc = Normal acc' ->
  (forall k, In k (map fst acc) -> inherited k = false) ->
  forall c, In c turns -> grouped game c = true ->
            inherited (bucket_key host recursiveGetPropertyAsString path c) = false.
Proof.
  revert acc. induction turns as [| current rest IH]; intros acc H Hown c Hin Hg;
    simpl in *.
  - contradiction.
  - apply bind_Normal in H as (acc1 & H1 & H).
    apply reducer_Normal in H1 as [[Hskip ->] | (_ & Hkey & ->)].
    + destruct Hin as [-> | Hin]; [rewrite Hg in Hskip; discriminate Hskip |].
      apply (IH _ H Hown c Hin Hg).
    + assert (Hcur : inherited (bucket_key host recursiveGetPropertyAsString path current)
                     = false).
      { destruct (inherited _) eqn:Hi; [| reflexivity].
        rewrite <- Hi. apply Hown, Hkey. reflexivity. }
      destruct Hin as [<- | Hin]; [exact Hcur |].
      apply (IH _ H); [| exact Hin | exact Hg].
      intros k Hk. apply obj_set_keys in Hk as [-> | Hk]; [exact Hcur | apply Hown, Hk].
Qed.

(** The reduction returns when no grouped combatant has such a key. *)
Lemma reduce_reducer_returns (path : string) (turns : list Combatant)
      (acc : list (string * list Combatant)) :
  (forall c, In c turns -> grouped game c = true ->
             inherited (bucket_key host recursiveGetPropertyAsString path c) = false) ->
  exists acc',
    reduce (reducer host recursiveGetPropertyAsString game path) turns acc = Normal acc'.
Proof.
  revert acc. induction turns as [| current rest IH]; intros acc Hkeys; simpl.
  - eexists. reflexivity.
  - assert (H1 : exists acc1,
               reducer host recursiveGetPropertyAsString game path acc current
               = Normal acc1).
    { pose proof (Hkeys current (or_introl eq_refl)) as Hcur.
      unfold reducer, bucket_key in *. destruct (grouped game current).
      - destruct (lookup _ acc); [eexists; reflexivity |].
        rewrite (Hcur eq_refl). eexists. reflexivity.
      - eexists. reflexivity. }
    destruct H1 as (acc1 & ->). simpl.
    apply IH. intros c Hin. apply Hkeys. right. exact Hin.
Qed.

Lemma path_of_mode_configured (mode : string) :
  In mode (map fst (MODES game)) -> exists path, path_of_mode game mode = Normal path.
Proof.
  intros H. unfold path_of_mode.
  destruct (find _ (MODES game)) as [m |] eqn:Hf.
  - eexists. reflexivity.
  - exfalso. apply in_map_iff in H as ((k & p) & Hk & Hin).
    apply (find_none _ _ Hf) in Hin. simpl in Hk, Hin. subst k.
    rewrite String.eqb_refl in Hin. discriminate Hin.
Qed.

Lemma path_of_mode_listed (mode path : string) :
  path_of_mode game mode = Normal path ->
  existsb (String.eqb mode) (map fst (MODES game)) = true.
Proof.
  unfold path_of_mode.
  destruct (find _ (MODES game)) as [m |] eqn:Hf; [| discriminate].
  intros _. apply find_some in Hf as [Hin Hk]. apply String.eqb_eq in Hk.
  apply existsb_exists. exists (fst m).
  split; [apply in_map, Hin | rewrite Hk; apply String.eqb_refl].
Qed.

(** What the path branch returns, when it returns. *)
Lemma path_groups_members (mode : string) (turns : list Combatant)
      (unsorted : list (list Combatant)) :
  combat game = Some turns ->
  path_groups host recursiveGetPropertyAsString game mode = Normal unsorted ->
  Permutation (concat unsorted) (filter (grouped game) turns)
  /\ Forall (fun g => g <> []) unsorted.
Proof.
  intros Hc H. unfold path_groups in H.
  apply bind_Normal in H as (path & _ & H). rewrite Hc in H.
  apply bind_Normal in H as (acc & Hacc & H). injection H as <-. split.
  - eapply perm_trans; [apply concat_Permutation, Object_values_Permutation |].
    apply (reduce_reducer_Permutation path turns [] acc Hacc).
  - eapply Permutation_Forall; [apply Permutation_sym, Object_values_Permutation |].
    apply (reduce_reducer_nonempty path turns [] acc Hacc). constructor.
Qed.

(** The path branch returns exactly when no grouped combatant is filed
    under a name of [Object.prototype]. *)
Lemma path_groups_returns (mode path : string) (turns : list Combatant) :
  combat game = Some turns ->
  path_of_mode game mode = Normal path ->
  (forall c, In c turns -> grouped game c = true ->
             inherited (bucket_key host recursiveGetPropertyAsString path c) = false) ->
  exists unsorted,
    path_groups host recursiveGetPropertyAsString game mode = Normal unsorted.
Proof.
  intros Hc Hp Hkeys. unfold path_groups. rewrite Hp, Hc. simpl.
  destruct (reduce_reducer_returns path turns [] Hkeys) as (acc & ->).
  simpl. eexists. reflexivity.
Qed.

Lemma path_groups_throws (mode path : string) (turns : list Combatant)
      (c : Combatant) :
  combat game = Some turns ->
  path_of_mode game mode = Normal path ->
  In c turns ->
  grouped game c = true ->
  inherited (bucket_key host recursiveGetPropertyAsString path c) = true ->
  path_groups host recursiveGetPropertyAsString game mode = Throw TypeError.
Proof.
  intros Hc Hp Hin Hg Hi. unfold path_groups. rewrite Hp, Hc. simpl.
  destruct (reduce _ turns []) as [acc | e] eqn:Hr.
  - exfalso.
    rewrite (reduce_reducer_own_keys path turns [] acc Hr) in Hi;
      [discriminate Hi | | exact Hin | exact Hg].
    intros k [].
  - destruct e. reflexivity.
Qed.

Lemma path_groups_partition (mode path : string) (turns : list Combatant) :
  combat game = Some turns ->
  path_of_mode game mode = Normal path ->
  (forall c, In c turns -> grouped game c = true ->
             inherited (bucket_key host recursiveGetPropertyAsString path c) = false) ->
  exists unsorted,
    path_groups host recursiveGetPropertyAsString game mode = Normal unsorted
    /\ Permutation (concat unsorted) (filter (grouped game) turns)
    /\ Forall (fun g => g <> []) unsorted.
Proof.
  intros Hc Hp Hkeys.
  destruct (path_groups_returns mode path turns Hc Hp Hkeys) as (unsorted & Hu).
  exists unsorted. split; [exact Hu |].
  apply (path_groups_members mode turns unsorted Hc Hu).
Qed.

(** The two sorting passes at the end of [Ctg.groups] move combatants
    around inside their group and groups around in the result. *)
Lemma sort_groups_Permutation (unsorted : list (list Combatant)) :
  (setting_sortCombatants (settings game) = false
   \/ In (setting_mode (settings game)) (map fst (MODES game))) ->
  Forall (fun g => g <> []) unsorted ->
  exists result,
    sort_groups host recursiveGetPropertyAsString game unsorted = Normal result
    /\ Permutation (concat result) (concat unsorted)
    /\ Forall (fun g => g <> []) result.
Proof.
  intros Hok Hne. unfold sort_groups.
  destruct (mapM_total
              (sort (compare_members host recursiveGetPropertyAsString game))
              unsorted) as (each & Heach).
  { apply Forall_forall. intros g _. apply sort_total.
    intros a b _ _. apply sortCombatants_returns, Hok. }
  rewrite Heach. simpl.
  apply mapM_Forall2 in Heach.
  assert (Hperm : Forall2 (@Permutation Combatant) unsorted each).
  { eapply Forall2_impl; [| exact Heach].
    intros g g' Hg. simpl in Hg. eapply sort_Permutation, Hg. }
  assert (Hne' : Forall (fun g => g <> []) each).
  { clear Heach. induction Hperm as [| g g' l l' Hg _ IH].
    - constructor.
    - inversion Hne; subst. constructor; [| apply IH; assumption].
      intros ->. apply Permutation_sym, Permutation_nil in Hg. contradiction. }
  destruct (sort_total (compare_groups host recursiveGetPropertyAsString game)
                       each) as (result & Hres).
  { intros g g' Hg Hg'. rewrite Forall_forall in Hne'.
    destruct g as [| a ?]; [exfalso; apply (Hne' [] Hg); reflexivity |].
    destruct g' as [| b ?]; [exfalso; apply (Hne' [] Hg'); reflexivity |].
    apply sortCombatants_returns, Hok. }
  exists result. split; [exact Hres |].
  apply sort_Permutation in Hres. split.
  - eapply perm_trans; [apply concat_Permutation, Permutation_sym, Hres |].
    apply Permutation_sym, concat_Forall2_Permutation, Hperm.
  - eapply Permutation_Forall; [exact Hres | exact Hne'].
Qed.

End GroupFacts.

(** ** Claims about [Ctg.groups] *)

Lemma grouped_not_skipped (game : Game) (c : Combatant) :
  grouped game c = negb (skipped game c).
Proof.
  unfold grouped, skipped.
  destruct (visible c), (setting_noGroupHidden (settings game)), (hidden c),
    (setting_noGroupPCs (settings game)), (hasPlayerOwner c); reflexivity.
Qed.

(** Leaving combatants out keeps the identifiers distinct. *)
Lemma filter_distinct_ids (keep : Combatant -> bool) (turns : list Combatant) :
  NoDup (map id turns) -> NoDup (map id (filter keep turns)).
Proof.
  intros Hnd. induction turns as [| c rest IH]; simpl in *.
  - constructor.
  - apply NoDup_cons_iff in Hnd as [Hc Hrest].
    destruct (keep c); simpl; [constructor |]; auto.
    intros Hin. apply Hc. apply in_map_iff in Hin as (c' & Hid & Hin).
    apply filter_In in Hin as [Hin _]. rewrite <- Hid. apply in_map, Hin.
Qed.

(** The path branch and the two sorting passes together, when no grouped
    combatant is filed under a name of [Object.prototype]. *)
Lemma groups_path_result
      (host : Host) (resolve : option Combatant -> string -> JsVal)
      (game : Game) (mode path : string) (turns : list Combatant) :
  combat game = Some turns ->
  path_of_mode game mode = Normal path ->
  (mode =? "mob")%string && mobAttackToolActive game = false ->
  (setting_sortCombatants (settings game) = false
   \/ In (setting_mode (settings game)) (map fst (MODES game))) ->
  (forall c, In c turns -> skipped game c = false ->
             inherited (bucket_key host resolve path c) = false) ->
  exists result,
    groups host resolve game mode = ([], Normal (Some result))
    /\ Permutation (concat result) (filter (grouped game) turns)
    /\ Forall (fun g => g <> []) result.
Proof.
  intros Hc Hp Hmob Hok Hkeys. unfold groups.
  rewrite (path_of_mode_listed game mode path Hp), Hmob. simpl.
  destruct (path_groups_partition host resolve game mode path turns Hc Hp)
    as (unsorted & -> & Hperm & Hne).
  { intros c Hin Hg. apply Hkeys; [exact Hin |].
    rewrite grouped_not_skipped in Hg. destruct (skipped game c);
      [discriminate Hg | reflexivity]. }
  simpl.
  destruct (sort_groups_Permutation host resolve game unsorted Hok Hne)
    as (result & -> & Hperm' & Hne').
  simpl. exists result. split; [reflexivity |]. split; [| exact Hne'].
  eapply perm_trans; [exact Hperm' | exact Hperm].
Qed.

(** In a path-based mode, with a combat at hand and no combatant to
    group whose key is a name of [Object.prototype], [Ctg.groups]
    returns groups whose members, taken together, are exactly the
    combatants of the turn order that are not skipped, each as often as
    it occurs there: none is left out, and when the turn order holds
    each identifier once, no identifier occurs twice across the groups.
    The comparator has to find the path of the active mode, which it
    does when sorting is off or the active mode is configured, as it is
    when the mode passed is the active one. *)
Theorem groups_path_partition
        (host : Host) (resolve : option Combatant -> string -> JsVal)
        (game : Game) (mode path : string) (turns : list Combatant) :
  combat game = Some turns ->
  path_of_mode game mode = Normal path ->
  (mode =? "mob")%string && mobAttackToolActive game = false ->
  (setting_sortCombatants (settings game) = false
   \/ In (setting_mode (settings game)) (map fst (MODES game))) ->
  (forall c, In c turns -> skipped game c = false ->
             inherited (bucket_key host resolve path c) = false) ->
  exists result,
    groups host resolve game mode = ([], Normal (Some result))
    /\ Permutation (concat result)
                   (filter (fun c => negb (skipped game c)) turns)
    /\ (NoDup (map id turns) -> NoDup (map id (concat result))).
Proof.
  intros Hc Hp Hmob Hactive Hkeys.
  destruct (groups_path_result host resolve game mode path turns
              Hc Hp Hmob Hactive Hkeys) as (result & Hg & Hperm & _).
  exists result. split; [exact Hg |].
  assert (Hall : Permutation (concat result)
                             (filter (fun c => negb (skipped game c)) turns)).
  { eapply perm_trans; [exact Hperm |].
    erewrite filter_ext; [apply Permutation_refl |].
    intros c. apply grouped_not_skipped. }
  split; [exact Hall |].
  intros Hnd. eapply Permutation_NoDup.
  - apply Permutation_map, Permutation_sym, Hall.
  - apply filter_distinct_ids, Hnd.
Qed.

Lemma groups_path_partition_witness :
  exists result,
    groups Reference.engine Reference.resolve
           (Examples.table "name" [Examples.goblin1; Examples.orc; Examples.goblin2])
           "name" = ([], Normal (Some result))
    /\ Permutation (concat result)
         (filter (fun c => negb (skipped
                    (Examples.table "name"
                       [Examples.goblin1; Examples.orc; Examples.goblin2]) c))
                 [Examples.goblin1; Examples.orc; Examples.goblin2])
    /\ (NoDup (map id [Examples.goblin1; Examples.orc; Examples.goblin2]) ->
        NoDup (map id (concat result))).
Proof.
  apply (groups_path_partition Reference.engine Reference.resolve
           (Examples.table "name" [Examples.goblin1; Examples.orc; Examples.goblin2])
           "name" "name" [Examples.goblin1; Examples.orc; Examples.goblin2]).
  - reflexivity.
  - reflexivity.
  - reflexivity.
  - right. simpl. do 2 right. left. reflexivity.
  - intros c [<- | [<- | [<- | []]]] _; reflexivity.
Defined.

(** C3. [Ctg.groups] does not place every combatant that is not skipped
    into a group: in a path-based mode, as soon as one of them has a
    key that is a name of [Object.prototype] (a combatant called
    "constructor" in the mode "name"), the call throws a [TypeError]
    and returns no groups at all. The accumulator is an object literal,
    so that [accumulator[key]] finds there the inherited method, which
    is not [undefined] and cannot be spread into an array. *)
Theorem groups_path_inherited_key_throws
        (host : Host) (resolve : option Combatant -> string -> JsVal)
        (game : Game) (mode path : string) (turns : list Combatant)
        (c : Combatant) :
  combat game = Some turns ->
  path_of_mode game mode = Normal path ->
  (mode =? "mob")%string && mobAttackToolActive game = false ->
  In c turns ->
  skipped game c = false ->
  inherited (bucket_key host resolve path c) = true ->
  groups host resolve game mode = ([], Throw TypeError).
Proof.
  intros Hc Hp Hmob Hin Hs Hi. unfold groups.
  rewrite (path_of_mode_listed game mode path Hp), Hmob. simpl.
  rewrite (path_groups_throws host resolve game mode path turns c Hc Hp Hin);
    [reflexivity | | exact Hi].
  rewrite grouped_not_skipped, Hs. reflexivity.
Qed.

Lemma groups_path_inherited_key_throws_witness :
  groups Reference.engine Reference.resolve
         (Examples.table "name"
            [Examples.goblin1; MoreExamples.builder; Examples.goblin2])
         "name"
  = ([], Throw TypeError).
Proof.
  apply (groups_path_inherited_key_throws Reference.engine Reference.resolve
           (Examples.table "name"
              [Examples.goblin1; MoreExamples.builder; Examples.goblin2])
           "name" "name"
           [Examples.goblin1; MoreExamples.builder; Examples.goblin2]
           MoreExamples.builder).
  - reflexivity.
  - reflexivity.
  - reflexivity.
  - simpl. right. left. reflexivity.
  - reflexivity.
  - reflexivity.
Defined.

(** C7. For a mode that is not among the configured modes, [Ctg.groups]
    raises the invalid-mode error notification and returns [undefined]:
    no list of groups, not even a partial one. *)
Theorem groups_invalid_mode
        (host : Host) (resolve : option Combatant -> string -> JsVal)
        (game : Game) (mode : string) :
  ~ In mode (map fst (MODES game)) ->
  groups host resolve game mode = ([Error_invalidMode mode], Normal None).
Proof.
  intros Hm. unfold groups.
  destruct (existsb (String.eqb mode) (map fst (MODES game))) eqn:He.
  - exfalso. apply Hm. apply existsb_exists in He as (k & Hin & Hk).
    apply String.eqb_eq in Hk. subst k. exact Hin.
  - reflexivity.
Qed.

Lemma groups_invalid_mode_witness :
  groups Reference.engine Reference.resolve
         (Examples.table "name" [Examples.goblin1; Examples.orc]) "faction"
  = ([Error_invalidMode "faction"], Normal None).
Proof.
  apply (groups_invalid_mode Reference.engine Reference.resolve
           (Examples.table "name" [Examples.goblin1; Examples.orc]) "faction").
  simpl. intros H.
  repeat (destruct H as [H | H]; [discriminate H |]). exact H.
Defined.

(** Every group built by path has a member. *)
Lemma groups_path_nonempty
      (host : Host) (resolve : option Combatant -> string -> JsVal)
      (game : Game) (mode : string) (result : list (list Combatant)) :
  (mode =? "mob")%string && mobAttackToolActive game = false ->
  snd (groups host resolve game mode) = Normal (Some result) ->
  Forall (fun g => g <> []) result.
Proof.
  intros Hmob. unfold groups.
  destruct (existsb (String.eqb mode) (map fst (MODES game))); simpl;
    [| discriminate].
  rewrite Hmob. simpl. intros H.
  apply bind_Normal in H as (unsorted & Hu & H).
  apply bind_Normal in H as (sorted & Hs & H). injection H as <-.
  assert (Hne : Forall (fun g => g <> []) unsorted).
  { destruct (combat game) as [turns |] eqn:Hc.
    - apply (path_groups_members host resolve game mode turns unsorted Hc Hu).
    - unfold path_groups in Hu. apply bind_Normal in Hu as (path & _ & Hu).
      rewrite Hc in Hu. discriminate Hu. }
  unfold sort_groups in Hs. apply bind_Normal in Hs as (each & He & Hs).
  apply sort_Permutation in Hs. apply mapM_Forall2 in He.
  eapply Permutation_Forall; [exact Hs |].
  clear Hs Hu. induction He as [| g g' l l' Hg _ IH].
  - constructor.
  - inversion Hne; subst. constructor; [| apply IH; assumption].
    apply sort_Permutation in Hg.
    intros ->. apply Permutation_sym, Permutation_nil in Hg. contradiction.
Qed.

(** C10. With the mob integration active and a saved mob whose only
    token has no combatant, [Ctg.groups] returns a list holding an empty
    group: the mob branch drops the tokens without a combatant but keeps
    the group they leave behind. *)
Theorem groups_mob_empty_group
        (host : Host) (resolve : option Combatant -> string -> JsVal) :
  groups host resolve Examples.mob_table "mob" = ([], Normal (Some [[]])).
Proof. reflexivity. Qed.

(** ** Claims about group skipping *)

Lemma findIndex_absent {A : Type} (p : A -> bool) (arr : list A) :
  (forall x, In x arr -> p x = false) -> findIndex p arr = -1.
Proof.
  induction arr as [| x xs IH]; simpl; intros H.
  - reflexivity.
  - rewrite (H x (or_introl eq_refl)), IH; [reflexivity |].
    intros y Hy. apply H. right. exact Hy.
Qed.

Lemma array_get_first {A : Type} (arr : list A) :
  array_get arr 0 = hd_error arr.
Proof. destruct arr; reflexivity. Qed.

Lemma array_at_last {A : Type} (arr : list A) :
  array_at arr (-1) = nth_error arr (length arr - 1).
Proof.
  unfold array_at, array_get. simpl.
  destruct arr as [| x xs]; [reflexivity |].
  replace (Z.of_nat (length (x :: xs)) + -1 <? 0) with false
    by (symmetry; apply Z.ltb_ge; simpl length; lia).
  f_equal. simpl length. lia.
Qed.

Lemma array_get_outside {A : Type} (arr : list A) (i : Z) :
  i < 0 \/ Z.of_nat (length arr) <= i -> array_get arr i = None.
Proof.
  intros H. unfold array_get. destruct (i <? 0) eqn:E; [reflexivity |].
  apply Z.ltb_ge in E. apply nth_error_None. lia.
Qed.

(** C4. On a turn order of eleven combatants grouped as [c0..c4],
    [c5..c9], [c10], the first turns of the groups are 0, 5 and 10, and
    [firstTurns] comes out as [0, 10, 5]: [sort()] without a comparison
    function orders the indices as strings, not as numbers. *)
Theorem firstTurns_sorted_as_strings :
  firstTurns Examples.eleven_document Examples.three_groups = Normal [0; 10; 5].
Proof. vm_compute. reflexivity. Qed.

(** The consequence for the hook: in a combat of three squads whose first
    turns are 0, 5 and 10, advancing from turn 5 lands on turn 0 and
    passes over the squad that starts at turn 10. *)
Lemma groupSkipping_passes_over_a_group :
  groupSkipping Reference.engine Reference.resolve
    (Examples.table "name" Examples.squads) Examples.squads_document
    {| change_turn := Some 6; change_round := None |}
  = ([], Normal {| change_turn := Some 0; change_round := None |}).
Proof. vm_compute. reflexivity. Qed.

(** C5. When the current turn is found in [firstTurns] at position [i]:
    moving forward from the last position yields the first entry, and
    moving backward from the first position yields the last entry. *)
Theorem nextTurn_wraps (firstTurns : list Z) (turn i : Z) :
  indexOfCurrent firstTurns (Some turn) = Some i ->
  (i + 1 = Z.of_nat (length firstTurns) ->
   nextTurn firstTurns (Some turn) 1 = hd_error firstTurns)
  /\ (i = 0 ->
      nextTurn firstTurns (Some turn) (-1)
      = nth_error firstTurns (length firstTurns - 1)).
Proof.
  intros Hi. unfold nextTurn. rewrite Hi. split; intros Hpos.
  - rewrite array_get_outside by lia. simpl.
    unfold array_at. simpl. apply array_get_first.
  - rewrite array_get_outside by lia. simpl. apply array_at_last.
Qed.

Lemma nextTurn_wraps_witness :
  nextTurn [0; 5; 9] (Some 9) 1 = Some 0
  /\ nextTurn [0; 5; 9] (Some 0) (-1) = Some 9.
Proof.
  split.
  - apply (proj1 (nextTurn_wraps [0; 5; 9] 9 2 eq_refl)). reflexivity.
  - apply (proj2 (nextTurn_wraps [0; 5; 9] 0 0 eq_refl)). reflexivity.
Defined.

(** C6. When the current turn is not among [firstTurns], moving forward
    yields the first entry and moving backward yields the last entry. *)
Theorem nextTurn_mid_group (firstTurns : list Z) (turn : Z) :
  ~ In turn firstTurns ->
  nextTurn firstTurns (Some turn) 1 = hd_error firstTurns
  /\ nextTurn firstTurns (Some turn) (-1)
     = nth_error firstTurns (length firstTurns - 1).
Proof.
  intros Hout. unfold nextTurn, indexOfCurrent.
  rewrite findIndex_absent.
  - simpl. split.
    + unfold array_at. simpl. apply array_get_first.
    + apply array_at_last.
  - intros x Hx. apply Z.eqb_neq. intros ->. contradiction.
Qed.

Lemma nextTurn_mid_group_witness :
  nextTurn [0; 5; 9] (Some 3) 1 = Some 0
  /\ nextTurn [0; 5; 9] (Some 3) (-1) = Some 9.
Proof.
  apply (nextTurn_mid_group [0; 5; 9] 3).
  simpl. intros H.
  repeat (destruct H as [H | H]; [discriminate H |]). exact H.
Defined.

(** ** Claims about the comparator *)

Lemma js_gt_strings (host : Host) (s t : string) :
  js_gt host (JString s) (JString t) = str_lt t s.
Proof. reflexivity. Qed.

Lemma js_gt_numbers (host : Host) (x y : JsNum) :
  js_gt host (JNumber x) (JNumber y) = num_lt y x.
Proof. reflexivity. Qed.

Lemma str_lt_antisym (s t : string) :
  s <> t -> str_lt s t = negb (str_lt t s).
Proof.
  intros Hne. unfold str_lt, String.ltb.
  rewrite (String.compare_antisym t s).
  destruct (String.compare s t) eqn:E; simpl; try reflexivity.
  apply String.compare_eq_iff in E. contradiction.
Qed.

Lemma num_lt_antisym (x y : Q) :
  ~ (x == y)%Q -> num_lt (Fin x) (Fin y) = negb (num_lt (Fin y) (Fin x)).
Proof.
  intros Hne. simpl. rewrite <- (Qcompare_antisym y x).
  destruct (y ?= x)%Q eqn:E; simpl; try reflexivity.
  apply Qeq_alt in E. exfalso. apply Hne. symmetry. exact E.
Qed.

Lemma num_sub_nonzero_sym (x y : JsNum) :
  num_nonzero (num_sub x y) = num_nonzero (num_sub y x).
Proof.
  destruct x as [| | | a], y as [| | | b]; simpl; try reflexivity.
  f_equal. apply eq_true_iff_eq. rewrite !Qeq_bool_iff.
  split; intros H.
  - setoid_replace (b - a)%Q with (- (a - b))%Q by ring. rewrite H. reflexivity.
  - setoid_replace (a - b)%Q with (- (b - a))%Q by ring. rewrite H. reflexivity.
Qed.

Lemma opposite_of_negb (g1 g2 : bool) :
  g1 = negb g2 ->
  opposite (Normal (if g1 then 1 else -1)) (Normal (if g2 then 1 else -1)).
Proof.
  intros ->. destruct g2; simpl; [right | left]; split; reflexivity.
Qed.

Section ComparatorClaims.

Variable host : Host.
Variable resolve : option Combatant -> string -> JsVal.
Variable game : Game.

(** In the numeric branch two finite values that differ always give [1],
    whichever of the two is the greater. *)
Lemma sortCombatants_numeric_difference (a b : Combatant) (path : string) (x y : Q) :
  setting_sortCombatants (settings game) = true ->
  path_of_mode game (setting_mode (settings game)) = Normal path ->
  both_boolean (resolve (Some a) path) (resolve (Some b) path) = false ->
  both_numeric host (resolve (Some a) path) (resolve (Some b) path) = true ->
  ToNumber host (resolve (Some a) path) = Fin x ->
  ToNumber host (resolve (Some b) path) = Fin y ->
  ~ (x == y)%Q ->
  sortCombatants host resolve game (Some a) (Some b) = Normal 1.
Proof.
  intros Hs Hp Hb Hn Hx Hy Hne. unfold sortCombatants.
  rewrite Hs, Hp. simpl. rewrite Hb, Hn, Hx, Hy. simpl.
  assert (E : Qeq_bool (y - x) 0 = false).
  { destruct (Qeq_bool (y - x) 0) eqn:E; [| reflexivity].
    apply Qeq_bool_iff in E. exfalso. apply Hne.
    setoid_replace x with (y - (y - x))%Q by ring. rewrite E. ring. }
  rewrite E. reflexivity.
Qed.

(** In the numeric branch an exact tie is settled by the identifiers,
    the smaller one first. *)
Lemma sortCombatants_numeric_tie (a b : Combatant) (path : string) :
  setting_sortCombatants (settings game) = true ->
  path_of_mode game (setting_mode (settings game)) = Normal path ->
  both_boolean (resolve (Some a) path) (resolve (Some b) path) = false ->
  both_numeric host (resolve (Some a) path) (resolve (Some b) path) = true ->
  num_nonzero (num_sub (ToNumber host (resolve (Some b) path))
                       (ToNumber host (resolve (Some a) path))) = false ->
  sortCombatants host resolve game (Some a) (Some b)
  = Normal (if str_lt (id b) (id a) then 1 else -1).
Proof.
  intros Hs Hp Hb Hn Hz. unfold sortCombatants.
  rewrite Hs, Hp. simpl. rewrite Hb, Hn, Hz. reflexivity.
Qed.

End ComparatorClaims.

(** C1. With the grouping path on [initiative], a combatant of
    initiative 20 compared with one of initiative 10 gives [1], which
    sorts the higher value after the lower one; the comparison in the
    other order gives [1] as well. *)
Theorem numeric_higher_sorted_after (host : Host) :
  sortCombatants host Reference.resolve
    (Examples.table "initiative" [Examples.fast; Examples.slow])
    (Some Examples.fast) (Some Examples.slow) = Normal 1
  /\ sortCombatants host Reference.resolve
       (Examples.table "initiative" [Examples.fast; Examples.slow])
       (Some Examples.slow) (Some Examples.fast) = Normal 1.
Proof. split; reflexivity. Qed.

(** C8. Two combatants whose resolved values are the same string, one
    that is neither numeric-like nor identifier-like, compare as [0]
    under every collation that finds a string equal to itself. *)
Theorem equal_strings_compare_zero
        (host : Host) (resolve : option Combatant -> string -> JsVal)
        (game : Game) (a b : Combatant) (path s : string) :
  setting_sortCombatants (settings game) = true ->
  path_of_mode game (setting_mode (settings game)) = Normal path ->
  resolve (Some a) path = JString s ->
  resolve (Some b) path = JString s ->
  isNumeric host (JString s) = false ->
  test_id_pattern s = false ->
  localeCompare host s s = 0 ->
  sortCombatants host resolve game (Some a) (Some b) = Normal 0.
Proof.
  intros Hs Hp Ha Hb Hn Ht Hl. unfold sortCombatants.
  rewrite Hs, Hp. simpl. rewrite Ha, Hb.
  unfold both_numeric. rewrite Hn. simpl. rewrite Ht. simpl.
  rewrite Hl. reflexivity.
Qed.

Lemma equal_strings_compare_zero_witness :
  sortCombatants Reference.engine Reference.resolve
    (Examples.table "name" [Examples.goblin1; Examples.goblin2])
    (Some Examples.goblin1) (Some Examples.goblin2) = Normal 0.
Proof.
  apply (equal_strings_compare_zero Reference.engine Reference.resolve
           (Examples.table "name" [Examples.goblin1; Examples.goblin2])
           Examples.goblin1 Examples.goblin2 "name" "Goblin");
    reflexivity.
Defined.

(** C9 as stated fails: of two combatants selected into the same group,
    whose flag holds the same sixteen-character identifier, the one with
    initiative 20 does not precede the one with initiative 10; it is the
    lower initiative that precedes the higher. *)
Lemma identifier_strings_higher_initiative_after :
  ~ precedes (sortCombatants Reference.engine Reference.resolve
                (Examples.table "selection" [Examples.picked_hi; Examples.picked_lo])
                (Some Examples.picked_hi) (Some Examples.picked_lo))
  /\ precedes (sortCombatants Reference.engine Reference.resolve
                 (Examples.table "selection" [Examples.picked_hi; Examples.picked_lo])
                 (Some Examples.picked_lo) (Some Examples.picked_hi)).
Proof.
  split.
  - intros (v & Hv & Hneg). vm_compute in Hv. injection Hv as <-. lia.
  - exists (-1). split; [reflexivity | lia].
Qed.

(** C9, amended. For two combatants whose resolved values are strings
    that are not both numeric-like: when both strings contain a run of
    sixteen alphanumeric characters, the strings are ignored and, the
    two initiatives being finite numbers, the result is [1] if the first
    combatant's initiative is greater than the second's and [-1]
    otherwise, so that the lower initiative precedes the higher; in any
    other case the result is the collation of the second string against
    the first. *)
Theorem identifier_strings_by_initiative
        (host : Host) (resolve : option Combatant -> string -> JsVal)
        (game : Game) (a b : Combatant) (path sa sb : string) :
  setting_sortCombatants (settings game) = true ->
  path_of_mode game (setting_mode (settings game)) = Normal path ->
  resolve (Some a) path = JString sa ->
  resolve (Some b) path = JString sb ->
  both_numeric host (JString sa) (JString sb) = false ->
  (test_id_pattern sa && test_id_pattern sb = true ->
   forall x y : Q,
     initiative a = Some (Fin x) ->
     initiative b = Some (Fin y) ->
     ((y < x)%Q ->
      sortCombatants host resolve game (Some a) (Some b) = Normal 1)
     /\ (~ (y < x)%Q ->
         sortCombatants host resolve game (Some a) (Some b) = Normal (-1)))
  /\ (test_id_pattern sa && test_id_pattern sb = false ->
      sortCombatants host resolve game (Some a) (Some b)
      = Normal (localeCompare host sb sa)).
Proof.
  intros Hs Hp Ha Hb Hn. unfold sortCombatants.
  rewrite Hs, Hp. simpl. rewrite Ha, Hb, Hn. simpl.
  split; intros Ht; rewrite Ht; [| reflexivity].
  intros x y Hx Hy. rewrite Hx, Hy, js_gt_numbers.
  change (num_lt (Fin y) (Fin x))
    with (match (y ?= x)%Q with Lt => true | _ => false end).
  split; intros Hlt.
  - rewrite (proj1 (Qlt_alt y x) Hlt). reflexivity.
  - destruct (y ?= x)%Q eqn:E; try reflexivity.
    exfalso. apply Hlt, Qlt_alt, E.
Qed.

(** The group identifier of the spec, initiatives 20 and 10. *)
Lemma identifier_strings_by_initiative_witness :
  sortCombatants Reference.engine Reference.resolve
    (Examples.table "selection" [Examples.picked_hi; Examples.picked_lo])
    (Some Examples.picked_hi) (Some Examples.picked_lo) = Normal 1.
Proof.
  apply (proj1 (identifier_strings_by_initiative
                  Reference.engine Reference.resolve
                  (Examples.table "selection"
                     [Examples.picked_hi; Examples.picked_lo])
                  Examples.picked_hi Examples.picked_lo
                  "flags.ctg.group" "aZ3kLp9QmN21xTy8" "aZ3kLp9QmN21xTy8"
                  eq_refl eq_refl eq_refl eq_refl eq_refl)
               eq_refl (inject_Z 20) (inject_Z 10) eq_refl eq_refl).
  reflexivity.
Defined.

Lemma both_boolean_sym (ia ib : JsVal) : both_boolean ia ib = both_boolean ib ia.
Proof. apply andb_comm. Qed.

Lemma both_numeric_sym (host : Host) (ia ib : JsVal) :
  both_numeric host ia ib = both_numeric host ib ia.
Proof. apply andb_comm. Qed.

Lemma both_object_sym (ia ib : JsVal) : both_object ia ib = both_object ib ia.
Proof. apply andb_comm. Qed.

Lemma both_string_sym (ia ib : JsVal) : both_string ia ib = both_string ib ia.
Proof. apply andb_comm. Qed.

Lemma both_object_not_boolean (ia ib : JsVal) :
  both_object ia ib = true -> both_boolean ia ib = false.
Proof. destruct ia, ib; simpl; intros H; try reflexivity; discriminate H. Qed.

(** C2 as stated fails: two visible combatants, neither of them hidden,
    compared on the path [hidden], give [-1] in both orders. *)
Lemma equal_booleans_not_opposite :
  ~ opposite
      (sortCombatants Reference.engine Reference.resolve
         (Examples.table "hidden" [Examples.goblin1; Examples.orc])
         (Some Examples.goblin1) (Some Examples.orc))
      (sortCombatants Reference.engine Reference.resolve
         (Examples.table "hidden" [Examples.goblin1; Examples.orc])
         (Some Examples.orc) (Some Examples.goblin1)).
Proof.
  intros [[H _] | [_ H]]; vm_compute in H; discriminate H.
Qed.

(** C2, amended. The two calls [compare(a, b)] and [compare(b, a)]
    return opposite results, one [1] and the other [-1], whenever the
    comparison is decided by a strict difference: distinct positions in
    the turn order when sorting is off; two unlike booleans; distinct
    identifiers after an exact numeric tie; distinct string identifiers
    of two composite values; two unlike finite initiatives under
    identifier-like strings; distinct identifiers in the fallback. *)
Theorem decisive_comparisons_opposite
        (host : Host) (resolve : option Combatant -> string -> JsVal)
        (game : Game) (a b : Combatant) :
  Decisive host resolve game a b ->
  opposite (sortCombatants host resolve game (Some a) (Some b))
           (sortCombatants host resolve game (Some b) (Some a)).
Proof.
  intros [turns Hs Hc Hne
         | path x y Hs Hp Ha Hb Hne
         | path Hs Hp Hbool Hnum Hzero Hne
         | path sa sb Hs Hp Hnum Hobj Ha Hb Hne
         | path sa sb x y Hs Hp Ha Hb Hnum Hta Htb Hx Hy Hne
         | path Hs Hp Hbool Hnum Hobj Hstr Hne];
    unfold sortCombatants; rewrite Hs; try (rewrite Hp; simpl).
  - unfold combat_indexOf. rewrite Hc, !js_gt_numbers.
    apply opposite_of_negb, num_lt_antisym.
    rewrite inject_Z_injective. congruence.
  - rewrite Ha, Hb. simpl.
    apply opposite_of_negb. destruct x, y; simpl; congruence.
  - rewrite (both_boolean_sym (resolve (Some b) path)), Hbool.
    rewrite (both_numeric_sym host (resolve (Some b) path)), Hnum.
    rewrite (num_sub_nonzero_sym (ToNumber host (resolve (Some a) path))), Hzero.
    simpl. rewrite !js_gt_strings.
    apply opposite_of_negb, str_lt_antisym. congruence.
  - rewrite (both_boolean_sym (resolve (Some b) path)).
    rewrite (both_object_not_boolean _ _ Hobj).
    rewrite (both_numeric_sym host (resolve (Some b) path)), Hnum.
    rewrite (both_object_sym (resolve (Some b) path)), Hobj.
    rewrite Ha, Hb, !js_gt_strings.
    apply opposite_of_negb, str_lt_antisym. congruence.
  - rewrite Ha, Hb.
    rewrite (both_numeric_sym host (JString sb)), Hnum. simpl.
    rewrite Hta, Htb, Hx, Hy. simpl andb. cbv iota.
    rewrite !js_gt_numbers.
    apply opposite_of_negb, num_lt_antisym.
    intros E. apply Hne. symmetry. exact E.
  - rewrite (both_boolean_sym (resolve (Some b) path)), Hbool.
    rewrite (both_numeric_sym host (resolve (Some b) path)), Hnum.
    rewrite (both_object_sym (resolve (Some b) path)), Hobj.
    rewrite (both_string_sym (resolve (Some b) path)), Hstr.
    simpl. rewrite !js_gt_strings.
    apply opposite_of_negb, str_lt_antisym. congruence.
Qed.

(** The tie of the spec: initiatives 15 and 15, identifiers "B" and "A". *)
Lemma decisive_comparisons_opposite_witness :
  opposite
    (sortCombatants Reference.engine Reference.resolve
       (Examples.table "initiative" [Examples.npc "B" 15 []; Examples.npc "A" 15 []])
       (Some (Examples.npc "B" 15 [])) (Some (Examples.npc "A" 15 [])))
    (sortCombatants Reference.engine Reference.resolve
       (Examples.table "initiative" [Examples.npc "B" 15 []; Examples.npc "A" 15 []])
       (Some (Examples.npc "A" 15 [])) (Some (Examples.npc "B" 15 []))).
Proof.
  apply (decisive_comparisons_opposite Reference.engine Reference.resolve
           (Examples.table "initiative"
              [Examples.npc "B" 15 []; Examples.npc "A" 15 []])
           (Examples.npc "B" 15 []) (Examples.npc "A" 15 [])).
  apply (decided_by_identifier_tie _ _ _ _ _ "initiative");
    try reflexivity.
  simpl. discriminate.
Defined.

(** * Further properties *)

(** ** Sorting by a consistent comparison *)

Section SortOrder.

Context {A : Type}.
Variable comparefn : A -> A -> Completion Z.
Variable le : A -> A -> Prop.
Hypothesis le_trans : forall x y z, le x y -> le y z -> le x z.

Lemma sort_insert_sorted (x : A) (l l' : list A) :
  agrees comparefn le (x :: l) ->
  StronglySorted le l ->
  sort_insert comparefn x l = Normal l' ->
  StronglySorted le l'.
Proof.
  revert l'. induction l as [| y rest IH]; simpl; intros l' Hag Hs H.
  - injection H as <-. constructor; constructor.
  - destruct (Hag x y) as (v & Hv & Hle & Hgt); [left; reflexivity | right; left; reflexivity |].
    rewrite Hv in H. simpl in H.
    apply StronglySorted_inv in Hs as [Hrest Hy].
    destruct (v <=? 0) eqn:E.
    + injection H as <-. apply Z.leb_le in E.
      constructor; [constructor; assumption |].
      constructor; [apply Hle, E |].
      eapply Forall_impl; [| exact Hy]. intros z Hz.
      apply le_trans with y; [apply Hle, E | exact Hz].
    + apply Z.leb_gt in E.
      apply bind_Normal in H as (rest' & Hrest' & H). injection H as <-.
      constructor.
      * apply IH; [| exact Hrest | exact Hrest'].
        intros a b Ha Hb. apply Hag.
        -- destruct Ha as [<- | Ha]; [left; reflexivity | right; right; exact Ha].
        -- destruct Hb as [<- | Hb]; [left; reflexivity | right; right; exact Hb].
      * apply sort_insert_Permutation in Hrest'.
        eapply Permutation_Forall; [exact Hrest' |].
        constructor; [apply Hgt, E | exact Hy].
Qed.

Lemma sort_sorted (l l' : list A) :
  agrees comparefn le l -> sort comparefn l = Normal l' -> StronglySorted le l'.
Proof.
  revert l'. induction l as [| x xs IH]; simpl; intros l' Hag H.
  - injection H as <-. constructor.
  - apply bind_Normal in H as (sorted & Hs & H).
    assert (Hp := sort_Permutation comparefn xs sorted Hs).
    eapply sort_insert_sorted; [| | exact H].
    + intros a b Ha Hb. apply Hag.
      * destruct Ha as [<- | Ha]; [left; reflexivity | right].
        apply Permutation_in with (l := sorted); [apply Permutation_sym, Hp | exact Ha].
      * destruct Hb as [<- | Hb]; [left; reflexivity | right].
        apply Permutation_in with (l := sorted); [apply Permutation_sym, Hp | exact Hb].
    + apply IH; [| exact Hs].
      intros a b Ha Hb. apply Hag; right; assumption.
Qed.

End SortOrder.

(** ** Positions in arrays *)

Lemma findIndex_bounds {A : Type} (p : A -> bool) (arr : list A) :
  -1 <= findIndex p arr < Z.of_nat (length arr).
Proof.
  induction arr as [| x xs IH]; simpl length; simpl findIndex.
  - lia.
  - destruct (p x); [lia |].
    destruct (findIndex p xs <? 0) eqn:E; [lia |].
    apply Z.ltb_ge in E. lia.
Qed.

Lemma findIndex_found {A : Type} (p : A -> bool) (arr : list A) :
  0 <= findIndex p arr ->
  exists x, nth_error arr (Z.to_nat (findIndex p arr)) = Some x /\ p x = true.
Proof.
  induction arr as [| x xs IH]; simpl findIndex; intros H.
  - lia.
  - destruct (p x) eqn:Hp.
    + exists x. split; [reflexivity | exact Hp].
    + destruct (findIndex p xs <? 0) eqn:E; [lia |].
      apply Z.ltb_ge in E. destruct (IH E) as (y & Hy & Hpy).
      exists y. split; [| exact Hpy].
      replace (Z.to_nat (findIndex p xs + 1)) with (S (Z.to_nat (findIndex p xs))) by lia.
      exact Hy.
Qed.

Lemma findIndex_first {A : Type} (p : A -> bool) (arr : list A) (n : nat) (x : A) :
  nth_error arr n = Some x ->
  p x = true ->
  (forall m y, (m < n)%nat -> nth_error arr m = Some y -> p y = false) ->
  findIndex p arr = Z.of_nat n.
Proof.
  revert n. induction arr as [| a rest IH]; intros n Hn Hp Hbefore.
  - destruct n; discriminate Hn.
  - destruct n as [| n]; simpl in Hn.
    + injection Hn as ->. simpl. rewrite Hp. reflexivity.
    + simpl findIndex. rewrite (Hbefore 0%nat a); [| lia | reflexivity].
      rewrite (IH n Hn Hp).
      * replace (Z.of_nat n <? 0) with false by (symmetry; apply Z.ltb_ge; lia). lia.
      * intros m y Hm Hy. apply (Hbefore (S m) y); [lia | exact Hy].
Qed.

Lemma mapM_In {A B : Type} (f : A -> Completion B) (l : list A) (l' : list B) (y : B) :
  mapM f l = Normal l' -> In y l' -> exists x, In x l /\ f x = Normal y.
Proof.
  intros H. apply mapM_Forall2 in H.
  induction H as [| x y' l l' Hxy _ IH]; simpl; intros Hin.
  - contradiction.
  - destruct Hin as [<- | Hin].
    + exists x. split; [left; reflexivity | exact Hxy].
    + destruct (IH Hin) as (x' & Hx' & Hf). exists x'. split; [right; exact Hx' | exact Hf].
Qed.

Lemma array_get_In {A : Type} (arr : list A) (i : Z) (x : A) :
  array_get arr i = Some x -> In x arr.
Proof.
  unfold array_get. destruct (i <? 0); [discriminate |].
  apply nth_error_In.
Qed.

Lemma array_get_nat {A : Type} (arr : list A) (n : nat) :
  array_get arr (Z.of_nat n) = nth_error arr n.
Proof.
  unfold array_get.
  replace (Z.of_nat n <? 0) with false by (symmetry; apply Z.ltb_ge; lia).
  rewrite Nat2Z.id. reflexivity.
Qed.

Lemma indexOfCurrent_nth (firstTurns : list Z) (n : nat) (t : Z) :
  NoDup firstTurns ->
  nth_error firstTurns n = Some t ->
  indexOfCurrent firstTurns (Some t) = Some (Z.of_nat n).
Proof.
  intros Hnd Hn. unfold indexOfCurrent.
  rewrite (findIndex_first (Z.eqb t) firstTurns n t Hn (Z.eqb_refl t)).
  - replace (Z.of_nat n =? -1) with false by (symmetry; apply Z.eqb_neq; lia).
    reflexivity.
  - intros m y Hm Hy. apply Z.eqb_neq. intros ->.
    assert (Hlen : (m < length firstTurns)%nat)
      by (apply nth_error_Some; rewrite Hy; discriminate).
    rewrite <- Hn in Hy.
    pose proof (proj1 (NoDup_nth_error firstTurns) Hnd m n Hlen Hy). lia.
Qed.

(** ** Further properties of group skipping *)

(** Whatever the current turn and the direction, the next turn is one of
    the first turns, as long as there is one. *)
Lemma nextTurn_lands_on_first_turn (firstTurns : list Z) (turn : option Z)
        (direction : Z) :
  firstTurns <> [] ->
  exists t, nextTurn firstTurns turn direction = Some t /\ In t firstTurns.
Proof.
  intros Hne. unfold nextTurn.
  destruct (match indexOfCurrent firstTurns turn with
            | Some i => array_get firstTurns (i + direction)
            | None => None
            end) as [t |] eqn:Hfound.
  - exists t. split; [reflexivity |].
    destruct (indexOfCurrent firstTurns turn); [| discriminate Hfound].
    apply (array_get_In _ _ _ Hfound).
  - destruct firstTurns as [| x rest]; [contradiction |].
    destruct (direction =? 1).
    + exists x. split; [reflexivity | left; reflexivity].
    + rewrite array_at_last.
      destruct (nth_error (x :: rest) (length (x :: rest) - 1)) as [t |] eqn:E.
      * exists t. split; [reflexivity | apply (nth_error_In _ _ E)].
      * apply nth_error_None in E. simpl in E. lia.
Qed.

Lemma nextTurn_inside (firstTurns : list Z) (t i direction u : Z) :
  indexOfCurrent firstTurns (Some t) = Some i ->
  array_get firstTurns (i + direction) = Some u ->
  nextTurn firstTurns (Some t) direction = Some u.
Proof. intros Hi Hu. unfold nextTurn. rewrite Hi, Hu. reflexivity. Qed.

Lemma nextTurn_past_the_end (firstTurns : list Z) (t i : Z) :
  indexOfCurrent firstTurns (Some t) = Some i ->
  Z.of_nat (length firstTurns) <= i + 1 ->
  nextTurn firstTurns (Some t) 1 = nth_error firstTurns 0.
Proof.
  intros Hi Hlen. unfold nextTurn. rewrite Hi.
  rewrite array_get_outside by lia. simpl.
  unfold array_at. simpl. apply (array_get_nat firstTurns 0).
Qed.

Lemma nextTurn_before_the_start (firstTurns : list Z) (t : Z) :
  indexOfCurrent firstTurns (Some t) = Some 0 ->
  nextTurn firstTurns (Some t) (-1)
  = nth_error firstTurns (length firstTurns - 1).
Proof.
  intros Hi. unfold nextTurn. rewrite Hi.
  rewrite array_get_outside by lia. simpl. apply array_at_last.
Qed.

(** When no first turn occurs twice, a step forward from a first turn
    followed by a step backward leads back to it, and so does a step
    backward followed by a step forward, wrapping included. *)
Theorem nextTurn_there_and_back (firstTurns : list Z) (t : Z) :
  NoDup firstTurns ->
  In t firstTurns ->
  (exists u, nextTurn firstTurns (Some t) 1 = Some u
             /\ nextTurn firstTurns (Some u) (-1) = Some t)
  /\ (exists u, nextTurn firstTurns (Some t) (-1) = Some u
                /\ nextTurn firstTurns (Some u) 1 = Some t).
Proof.
  intros Hnd Hin. apply In_nth_error in Hin as (n & Hn).
  assert (Hlen : (n < length firstTurns)%nat)
    by (apply nth_error_Some; rewrite Hn; discriminate).
  pose proof (indexOfCurrent_nth firstTurns n t Hnd Hn) as Hidx.
  assert (Hlast : nth_error firstTurns (length firstTurns - 1) <> None)
    by (apply nth_error_Some; lia).
  assert (Hfirst : nth_error firstTurns 0 <> None)
    by (apply nth_error_Some; lia).
  split.
  - destruct (nth_error firstTurns (S n)) as [u |] eqn:Hu.
    + exists u. split.
      * apply (nextTurn_inside _ _ _ _ _ Hidx).
        replace (Z.of_nat n + 1) with (Z.of_nat (S n)) by lia.
        rewrite array_get_nat. exact Hu.
      * apply (nextTurn_inside _ _ _ _ _ (indexOfCurrent_nth _ _ _ Hnd Hu)).
        replace (Z.of_nat (S n) + -1) with (Z.of_nat n) by lia.
        rewrite array_get_nat. exact Hn.
    + apply nth_error_None in Hu.
      destruct (nth_error firstTurns 0) as [u |] eqn:H0; [| contradiction].
      exists u. split.
      * rewrite (nextTurn_past_the_end _ _ _ Hidx) by lia. exact H0.
      * rewrite (nextTurn_before_the_start _ _ (indexOfCurrent_nth _ _ _ Hnd H0)).
        replace (length firstTurns - 1)%nat with n by lia. exact Hn.
  - destruct n as [| m].
    + destruct (nth_error firstTurns (length firstTurns - 1)) as [u |] eqn:Hu;
        [| contradiction].
      exists u. split.
      * rewrite (nextTurn_before_the_start _ _ Hidx). exact Hu.
      * rewrite (nextTurn_past_the_end _ _ _ (indexOfCurrent_nth _ _ _ Hnd Hu)) by lia.
        exact Hn.
    + destruct (nth_error firstTurns m) as [u |] eqn:Hu.
      * exists u. split.
        -- apply (nextTurn_inside _ _ _ _ _ Hidx).
           replace (Z.of_nat (S m) + -1) with (Z.of_nat m) by lia.
           rewrite array_get_nat. exact Hu.
        -- apply (nextTurn_inside _ _ _ _ _ (indexOfCurrent_nth _ _ _ Hnd Hu)).
           replace (Z.of_nat m + 1) with (Z.of_nat (S m)) by lia.
           rewrite array_get_nat. exact Hn.
      * apply nth_error_None in Hu. lia.
Qed.

Lemma nextTurn_there_and_back_witness :
  (exists u, nextTurn [0; 5; 9] (Some 9) 1 = Some u
             /\ nextTurn [0; 5; 9] (Some u) (-1) = Some 9)
  /\ (exists u, nextTurn [0; 5; 9] (Some 9) (-1) = Some u
                /\ nextTurn [0; 5; 9] (Some u) 1 = Some 9).
Proof.
  apply (nextTurn_there_and_back [0; 5; 9] 9).
  - repeat constructor; simpl; intros H;
      repeat (destruct H as [H | H]; [discriminate H |]); exact H.
  - simpl. do 2 right. left. reflexivity.
Defined.

Lemma default_compare_below_ten (x y : Z) :
  -1 <= x <= 9 -> -1 <= y <= 9 ->
  exists v, default_compare x y = Normal v
            /\ (v <= 0 -> x <= y) /\ (0 < v -> y <= x).
Proof.
  intros Hx Hy.
  assert (Ex : x = -1 \/ x = 0 \/ x = 1 \/ x = 2 \/ x = 3 \/ x = 4 \/ x = 5
               \/ x = 6 \/ x = 7 \/ x = 8 \/ x = 9) by lia.
  assert (Ey : y = -1 \/ y = 0 \/ y = 1 \/ y = 2 \/ y = 3 \/ y = 4 \/ y = 5
               \/ y = 6 \/ y = 7 \/ y = 8 \/ y = 9) by lia.
  repeat (destruct Ex as [-> | Ex]); try subst x;
    repeat (destruct Ey as [-> | Ey]); try subst y;
    eexists; (split; [vm_compute; reflexivity | split; lia]).
Qed.

Lemma first_turn_of_bounds (document : CombatDocument) (group : list Combatant) (t : Z) :
  first_turn_of document group = Normal t ->
  -1 <= t < Z.of_nat (length (doc_turns document)).
Proof.
  unfold first_turn_of. destruct group as [| first rest].
  - destruct (doc_turns document); [| discriminate].
    intros H. injection H as <-. simpl. lia.
  - intros H. injection H as <-. apply findIndex_bounds.
Qed.

(** In a combat of at most ten turns [firstTurns] is in ascending order:
    on the indices below ten, and on the [-1] of a combatant that is not
    in the turn order, the order of the strings is the order of the
    numbers. *)
Theorem firstTurns_ascending_below_ten
        (document : CombatDocument) (groups : list (list Combatant))
        (sorted : list Z) :
  (length (doc_turns document) <= 10)%nat ->
  firstTurns document groups = Normal sorted ->
  StronglySorted Z.le sorted.
Proof.
  intros Hlen H. unfold firstTurns in H.
  apply bind_Normal in H as (indices & Hi & Hs).
  eapply (sort_sorted default_compare Z.le Z.le_trans); [| exact Hs].
  intros x y Hx Hy.
  destruct (mapM_In _ _ _ _ Hi Hx) as (gx & _ & Hgx).
  destruct (mapM_In _ _ _ _ Hi Hy) as (gy & _ & Hgy).
  apply first_turn_of_bounds in Hgx, Hgy.
  apply default_compare_below_ten; lia.
Qed.

Lemma firstTurns_ascending_below_ten_witness :
  StronglySorted Z.le [0; 3; 5].
Proof.
  apply (firstTurns_ascending_below_ten
           {| doc_turns := firstn 6 Examples.eleven; doc_turn := Some 0;
              doc_current_round := Some 1; doc_current_turn := Some 0 |}
           [firstn 3 (skipn 3 Examples.eleven); skipn 5 (firstn 6 Examples.eleven);
            firstn 3 Examples.eleven]
           [0; 3; 5]).
  - simpl. lia.
  - vm_compute. reflexivity.
Defined.

(** [firstTurns] holds, for each group, the turn of its first member:
    the same indices, only reordered. *)
Lemma firstTurns_one_per_group
        (document : CombatDocument) (groups : list (list Combatant))
        (sorted : list Z) :
  firstTurns document groups = Normal sorted ->
  exists indices,
    Forall2 (fun group t => first_turn_of document group = Normal t)
            groups indices
    /\ Permutation indices sorted.
Proof.
  intros H. unfold firstTurns in H.
  apply bind_Normal in H as (indices & Hi & Hs).
  exists indices. split.
  - apply mapM_Forall2, Hi.
  - apply (sort_Permutation _ _ _ Hs).
Qed.

(** [findIndex] gives the position of the first element that satisfies
    the test, and [-1] exactly when no element does. *)
Lemma findIndex_spec {A : Type} (p : A -> bool) (arr : list A) :
  (0 <= findIndex p arr
   /\ exists x,
        nth_error arr (Z.to_nat (findIndex p arr)) = Some x
        /\ p x = true
        /\ forall m y, (m < Z.to_nat (findIndex p arr))%nat ->
                       nth_error arr m = Some y -> p y = false)
  \/ (findIndex p arr = -1 /\ forall x, In x arr -> p x = false).
Proof.
  induction arr as [| a rest IH]; simpl findIndex.
  - right. split; [reflexivity | intros x []].
  - destruct (p a) eqn:Hpa.
    + left. split; [lia |]. exists a.
      split; [reflexivity |]. split; [exact Hpa |].
      intros m y Hm. simpl in Hm. lia.
    + destruct IH as [(Hpos & x & Hx & Hpx & Hbefore) | (Hneg & Hnone)].
      * left.
        replace (findIndex p rest <? 0) with false
          by (symmetry; apply Z.ltb_ge; exact Hpos).
        split; [lia |]. exists x.
        replace (Z.to_nat (findIndex p rest + 1))
          with (S (Z.to_nat (findIndex p rest))) by lia.
        split; [exact Hx |]. split; [exact Hpx |].
        intros [| m] y Hm Hy; simpl in Hy.
        -- injection Hy as <-. exact Hpa.
        -- apply (Hbefore m y); [lia | exact Hy].
      * right. rewrite Hneg. simpl. split; [reflexivity |].
        intros x [<- | Hx]; [exact Hpa | apply Hnone, Hx].
Qed.

(** What [Ctg.groups] returns in a path-based mode, when it returns:
    the combatants of the turn order that are grouped, in groups none
    of which is empty. *)
Lemma groups_path_members
      (host : Host) (resolve : option Combatant -> string -> JsVal)
      (game : Game) (mode : string) (turns : list Combatant)
      (result : list (list Combatant)) :
  combat game = Some turns ->
  (mode =? "mob")%string && mobAttackToolActive game = false ->
  snd (groups host resolve game mode) = Normal (Some result) ->
  Permutation (concat result) (filter (grouped game) turns)
  /\ Forall (fun g => g <> []) result.
Proof.
  intros Hc Hmob. unfold groups.
  destruct (existsb (String.eqb mode) (map fst (MODES game))); simpl;
    [| discriminate].
  rewrite Hmob. simpl. intros H.
  apply bind_Normal in H as (unsorted & Hu & H).
  apply bind_Normal in H as (sorted & Hs & H). injection H as <-.
  destruct (path_groups_members host resolve game mode turns unsorted Hc Hu)
    as [Hperm Hne].
  unfold sort_groups in Hs. apply bind_Normal in Hs as (each & He & Hs).
  apply sort_Permutation in Hs. apply mapM_Forall2 in He.
  assert (Heach : Forall2 (@Permutation Combatant) unsorted each).
  { eapply Forall2_impl; [| exact He].
    intros g g' Hg. simpl in Hg. eapply sort_Permutation, Hg. }
  split.
  - eapply perm_trans; [apply concat_Permutation, Permutation_sym, Hs |].
    eapply perm_trans; [| exact Hperm].
    apply Permutation_sym, concat_Forall2_Permutation, Heach.
  - eapply Permutation_Forall; [exact Hs |].
    clear - Heach Hne. induction Heach as [| g g' l l' Hg _ IH].
    + constructor.
    + inversion Hne; subst. constructor; [| apply IH; assumption].
      intros ->. apply Permutation_sym, Permutation_nil in Hg. contradiction.
Qed.

(** The hook never touches the round of the change, and a turn it writes
    is what [findIndex] gives in the turns of the document for the
    first member of one of the groups: the position of the first
    combatant there with the identifier of that member, or [-1] when the
    document holds no such combatant. The groups are built from
    [game.combat] and the positions are looked up in the document, so
    that [-1] is written for a document that does not hold the first
    member of the group. When the document holds the turns of
    [game.combat] and the mode is path-based, the turn written is a
    position of the turn order. *)
Theorem groupSkipping_lands_on_group_start
        (host : Host) (resolve : option Combatant -> string -> JsVal)
        (game : Game) (document : CombatDocument) (change change' : Change) :
  snd (groupSkipping host resolve game document change) = Normal change' ->
  change_round change' = change_round change
  /\ (change' = change
      \/ exists built group t,
           snd (groups host resolve game (setting_mode (settings game)))
           = Normal (Some built)
           /\ In group built
           /\ change_turn change' = Some t
           /\ ((0 <= t
                /\ exists first c,
                     hd_error group = Some first
                     /\ nth_error (doc_turns document) (Z.to_nat t) = Some c
                     /\ id c = id first
                     /\ forall m y, (m < Z.to_nat t)%nat ->
                          nth_error (doc_turns document) m = Some y ->
                          id y <> id first)
               \/ (t = -1
                   /\ forall first c,
                        hd_error group = Some first ->
                        In c (doc_turns document) -> id c <> id first))
           /\ (combat game = Some (doc_turns document) ->
               (setting_mode (settings game) =? "mob")%string
               && mobAttackToolActive game = false ->
               0 <= t < Z.of_nat (length (doc_turns document)))).
Proof.
  unfold groupSkipping.
  destruct (groups host resolve game (setting_mode (settings game)))
    as (log & built) eqn:Hgroups. simpl.
  intros H. apply bind_Normal in H as (result & -> & H).
  destruct (userIsGM game && _ && _ && _).
  - destruct result as [gs |]; [| discriminate H].
    destruct (1 <? length gs)%nat eqn:Hlen.
    + apply bind_Normal in H as (sorted & Hsorted & H). injection H as <-.
      split; [reflexivity | right].
      destruct (firstTurns_one_per_group _ _ _ Hsorted) as (indices & Hall & Hperm).
      assert (Hne : sorted <> []).
      { intros ->. apply Permutation_sym, Permutation_nil in Hperm. subst indices.
        inversion Hall; subst. simpl in Hlen. discriminate Hlen. }
      destruct (nextTurn_lands_on_first_turn sorted (doc_turn document)
                  (direction_of document change) Hne) as (t & Ht & Hin).
      apply (Permutation_in _ (Permutation_sym Hperm)) in Hin.
      unfold firstTurns in Hsorted. apply bind_Normal in Hsorted as (ix & Hix & _).
      assert (ix = indices).
      { apply mapM_Forall2 in Hix. clear - Hix Hall.
        revert indices Hall. induction Hix as [| g y l l' Hg _ IH]; intros indices Hall.
        - inversion Hall. reflexivity.
        - inversion Hall as [| ? y' ? l'' Hg' Hrest]; subst.
          rewrite Hg in Hg'. injection Hg' as <-. f_equal. apply IH, Hrest. }
      subst ix. destruct (mapM_In _ _ _ _ Hix Hin) as (g & Hg & Hgt).
      exists gs, g, t. simpl.
      split; [reflexivity |]. split; [exact Hg |]. split; [exact Ht |].
      assert (Hwhere :
                (0 <= t
                 /\ exists first c,
                      hd_error g = Some first
                      /\ nth_error (doc_turns document) (Z.to_nat t) = Some c
                      /\ id c = id first
                      /\ forall m y, (m < Z.to_nat t)%nat ->
                           nth_error (doc_turns document) m = Some y ->
                           id y <> id first)
                \/ (t = -1
                    /\ forall first c,
                         hd_error g = Some first ->
                         In c (doc_turns document) -> id c <> id first)).
      { unfold first_turn_of in Hgt. destruct g as [| first rest].
        - right. destruct (doc_turns document); [| discriminate Hgt].
          injection Hgt as <-. split; [reflexivity |]. intros ? ? Hhd. discriminate Hhd.
        - injection Hgt as <-.
          destruct (findIndex_spec (fun c => (id c =? id first)%string)
                                   (doc_turns document))
            as [(Hpos & c & Hc & Hpc & Hbefore) | (Hneg & Hnone)].
          + left. split; [exact Hpos |]. exists first, c.
            split; [reflexivity |]. split; [exact Hc |].
            split; [apply String.eqb_eq, Hpc |].
            intros m y Hm Hy. apply String.eqb_neq, (Hbefore m y Hm Hy).
          + right. split; [exact Hneg |].
            intros first' c Hhd Hc. injection Hhd as <-.
            apply String.eqb_neq, Hnone, Hc. }
      split; [exact Hwhere |].
      intros Hown Hmob.
      pose proof (first_turn_of_bounds document g t Hgt) as Hbounds.
      split; [| lia].
      destruct Hwhere as [[Hpos _] | [Hneg Hnone]]; [exact Hpos |].
      exfalso.
      assert (Hbuilt : snd (groups host resolve game (setting_mode (settings game)))
                       = Normal (Some gs)) by (rewrite Hgroups; reflexivity).
      destruct (groups_path_members host resolve game _ (doc_turns document) gs
                  Hown Hmob Hbuilt) as [Hmembers Hnonempty].
      rewrite Forall_forall in Hnonempty.
      destruct g as [| first rest]; [apply (Hnonempty [] Hg); reflexivity |].
      apply (Hnone first first eq_refl); [| reflexivity].
      assert (Hfirst : In first (filter (grouped game) (doc_turns document))).
      { apply (Permutation_in _ Hmembers). apply in_concat.
        exists (first :: rest). split; [exact Hg | left; reflexivity]. }
      apply filter_In in Hfirst as [Hfirst _]. exact Hfirst.
    + injection H as <-. split; [reflexivity | left; reflexivity].
  - injection H as <-. split; [reflexivity | left; reflexivity].
Qed.

Lemma groupSkipping_lands_on_group_start_witness :
  change_round {| change_turn := Some 0; change_round := None |}
  = change_round {| change_turn := Some 6; change_round := None |}
  /\ ({| change_turn := Some 0; change_round := None |}
      = {| change_turn := Some 6; change_round := None |}
      \/ exists built group t,
           snd (groups Reference.engine Reference.resolve
                       (Examples.table "name" Examples.squads)
                       (setting_mode (settings (Examples.table "name" Examples.squads))))
           = Normal (Some built)
           /\ In group built
           /\ change_turn {| change_turn := Some 0; change_round := None |} = Some t
           /\ ((0 <= t
                /\ exists first c,
                     hd_error group = Some first
                     /\ nth_error (doc_turns Examples.squads_document) (Z.to_nat t)
                        = Some c
                     /\ id c = id first
                     /\ forall m y, (m < Z.to_nat t)%nat ->
                          nth_error (doc_turns Examples.squads_document) m = Some y ->
                          id y <> id first)
               \/ (t = -1
                   /\ forall first c,
                        hd_error group = Some first ->
                        In c (doc_turns Examples.squads_document) ->
                        id c <> id first))
           /\ (combat (Examples.table "name" Examples.squads)
               = Some (doc_turns Examples.squads_document) ->
               (setting_mode (settings (Examples.table "name" Examples.squads))
                =? "mob")%string
               && mobAttackToolActive (Examples.table "name" Examples.squads) = false ->
               0 <= t < Z.of_nat (length (doc_turns Examples.squads_document)))).
Proof.
  apply (groupSkipping_lands_on_group_start Reference.engine Reference.resolve
           (Examples.table "name" Examples.squads) Examples.squads_document
           {| change_turn := Some 6; change_round := None |}
           {| change_turn := Some 0; change_round := None |}).
  vm_compute. reflexivity.
Defined.

(** With a saved mode that is neither configured nor "none", the hook of
    a game master with group skipping enabled raises the invalid-mode
    notification and then throws, for every change of turn: it reads the
    length of the [undefined] that [Ctg.groups] returned. *)
Theorem groupSkipping_throws_on_unknown_mode
        (host : Host) (resolve : option Combatant -> string -> JsVal)
        (game : Game) (document : CombatDocument) (change : Change) (turn : Z) :
  ~ In (setting_mode (settings game)) (map fst (MODES game)) ->
  setting_mode (settings game) <> "none" ->
  userIsGM game = true ->
  setting_groupSkipping (settings game) = true ->
  change_turn change = Some turn ->
  groupSkipping host resolve game document change
  = ([Error_invalidMode (setting_mode (settings game))], Throw TypeError).
Proof.
  intros Hm Hnone Hgm Hskip Hturn. unfold groupSkipping, groups.
  destruct (existsb (String.eqb (setting_mode (settings game)))
                    (map fst (MODES game))) eqn:He.
  - exfalso. apply Hm. apply existsb_exists in He as (k & Hin & Hk).
    apply String.eqb_eq in Hk. subst k. exact Hin.
  - simpl. rewrite Hgm, Hskip, Hturn.
    apply String.eqb_neq in Hnone. rewrite Hnone. reflexivity.
Qed.

Lemma groupSkipping_throws_on_unknown_mode_witness :
  groupSkipping Reference.engine Reference.resolve
    (Examples.table "faction" Examples.squads) Examples.squads_document
    {| change_turn := Some 6; change_round := None |}
  = ([Error_invalidMode "faction"], Throw TypeError).
Proof.
  apply (groupSkipping_throws_on_unknown_mode Reference.engine Reference.resolve
           (Examples.table "faction" Examples.squads) Examples.squads_document
           {| change_turn := Some 6; change_round := None |} 6).
  - simpl. intros H. repeat (destruct H as [H | H]; [discriminate H |]). exact H.
  - discriminate.
  - reflexivity.
  - reflexivity.
  - reflexivity.
Defined.

(** ** Further properties of the comparator *)

(** Every branch of the comparator but the collation of two strings
    returns [1] or [-1]. *)
Theorem sortCombatants_one_or_minus_one
        (host : Host) (resolve : option Combatant -> string -> JsVal)
        (game : Game) (a b : option Combatant) (v : Z) :
  sortCombatants host resolve game a b = Normal v ->
  v = 1 \/ v = -1
  \/ exists path sa sb,
       path_of_mode game (setting_mode (settings game)) = Normal path
       /\ resolve a path = JString sa
       /\ resolve b path = JString sb
       /\ v = localeCompare host sb sa.
Proof.
  unfold sortCombatants.
  destruct (setting_sortCombatants (settings game)).
  - destruct (path_of_mode game (setting_mode (settings game))) as [path | e];
      [| discriminate]. simpl.
    destruct (both_boolean _ _);
      [intros H; injection H as <-; destruct (truthy _); auto |].
    destruct (both_numeric _ _ _).
    { destruct (num_nonzero _);
        [intros H; injection H as <-; destruct (num_truthy _); auto |].
      destruct (member_id a); [| discriminate].
      destruct (member_id b); [| discriminate]. simpl.
      intros H; injection H as <-; destruct (js_gt _ _ _); auto. }
    destruct (both_object _ _);
      [intros H; injection H as <-; destruct (js_gt _ _ _); auto |].
    destruct (both_string (resolve a path) (resolve b path)) eqn:Hstr;
      [| intros H; injection H as <-; destruct (js_gt _ _ _); auto].
    destruct (test_id_pattern _ && test_id_pattern _);
      [intros H; injection H as <-; destruct (js_gt _ _ _); auto |].
    intros H. injection H as <-. right. right.
    unfold both_string in Hstr. apply andb_true_iff in Hstr as [Ha Hb].
    destruct (resolve a path) as [| | | | sa | |] eqn:Ea; try discriminate Ha.
    destruct (resolve b path) as [| | | | sb | |] eqn:Eb; try discriminate Hb.
    exists path, sa, sb. repeat split; first [assumption | reflexivity].
  - intros H; injection H as <-; destruct (js_gt _ _ _); auto.
Qed.

Lemma sortCombatants_one_or_minus_one_witness :
  0 = 1 \/ 0 = -1
  \/ exists path sa sb,
       path_of_mode (Examples.table "name" [Examples.goblin1; Examples.goblin2])
                    (setting_mode (settings (Examples.table "name"
                                     [Examples.goblin1; Examples.goblin2])))
       = Normal path
       /\ Reference.resolve (Some Examples.goblin1) path = JString sa
       /\ Reference.resolve (Some Examples.goblin2) path = JString sb
       /\ 0 = localeCompare Reference.engine sb sa.
Proof.
  apply (sortCombatants_one_or_minus_one Reference.engine Reference.resolve
           (Examples.table "name" [Examples.goblin1; Examples.goblin2])
           (Some Examples.goblin1) (Some Examples.goblin2) 0).
  reflexivity.
Defined.

(** On two combatants the comparator returns exactly when sorting is off
    or the saved mode is among the configured modes; with sorting on and
    the saved mode gone it throws, whatever its arguments. *)
Theorem sortCombatants_throws_without_mode
        (host : Host) (resolve : option Combatant -> string -> JsVal)
        (game : Game) :
  (forall a b : Combatant,
      (exists v, sortCombatants host resolve game (Some a) (Some b) = Normal v)
      <-> (setting_sortCombatants (settings game) = false
           \/ In (setting_mode (settings game)) (map fst (MODES game))))
  /\ (setting_sortCombatants (settings game) = true ->
      ~ In (setting_mode (settings game)) (map fst (MODES game)) ->
      forall a b : option Combatant,
        sortCombatants host resolve game a b = Throw TypeError).
Proof.
  assert (Hthrow : setting_sortCombatants (settings game) = true ->
                   ~ In (setting_mode (settings game)) (map fst (MODES game)) ->
                   forall a b : option Combatant,
                     sortCombatants host resolve game a b = Throw TypeError).
  { intros Hs Hm a b. unfold sortCombatants, path_of_mode. rewrite Hs.
    destruct (find _ (MODES game)) as [m |] eqn:Hf; [| reflexivity].
    exfalso. apply Hm. apply find_some in Hf as [Hin Hk].
    apply String.eqb_eq in Hk. rewrite <- Hk. apply in_map, Hin. }
  split; [| exact Hthrow].
  intros a b. split.
  - intros (v & Hv).
    destruct (setting_sortCombatants (settings game)) eqn:Hs; [| left; reflexivity].
    right.
    destruct (in_dec string_dec (setting_mode (settings game))
                     (map fst (MODES game))) as [Hin | Hout]; [exact Hin |].
    rewrite (Hthrow eq_refl Hout) in Hv. discriminate Hv.
  - apply sortCombatants_returns.
Qed.

Lemma sortCombatants_throws_without_mode_witness :
  sortCombatants Reference.engine Reference.resolve
    (Examples.table "faction" [Examples.fast; Examples.slow])
    (Some Examples.fast) None = Throw TypeError.
Proof.
  apply (proj2 (sortCombatants_throws_without_mode
                  Reference.engine Reference.resolve
                  (Examples.table "faction" [Examples.fast; Examples.slow]))).
  - reflexivity.
  - simpl. intros H. repeat (destruct H as [H | H]; [discriminate H |]). exact H.
Defined.

Lemma Qcompare_inject_Z (i j : Z) : (inject_Z i ?= inject_Z j)%Q = (i ?= j)%Z.
Proof. unfold Qcompare. simpl. rewrite !Z.mul_1_r. reflexivity. Qed.

(** With sorting off the comparator is the turn order: it places [a]
    before [b] exactly when [a] does not come after [b] in the turns of
    the combat, a combatant that is not there counting as position
    [-1]. *)
Theorem sortCombatants_unsorted_is_turn_order
        (host : Host) (resolve : option Combatant -> string -> JsVal)
        (game : Game) (turns : list Combatant) (a b : Combatant) :
  setting_sortCombatants (settings game) = false ->
  combat game = Some turns ->
  (precedes (sortCombatants host resolve game (Some a) (Some b))
   <-> turn_le turns a b)
  /\ (sortCombatants host resolve game (Some a) (Some b) = Normal 1
      <-> ~ turn_le turns a b).
Proof.
  intros Hs Hc. unfold sortCombatants, combat_indexOf, turn_le, precedes.
  rewrite Hs, Hc, js_gt_numbers.
  change (num_lt (Fin (inject_Z (indexOf turns (Some b))))
                 (Fin (inject_Z (indexOf turns (Some a)))))
    with (match (inject_Z (indexOf turns (Some b))
                 ?= inject_Z (indexOf turns (Some a)))%Q
          with Lt => true | _ => false end).
  rewrite Qcompare_inject_Z.
  destruct (indexOf turns (Some b) ?= indexOf turns (Some a)) eqn:E.
  - apply Z.compare_eq in E. split; split.
    + intros _. lia.
    + intros _. exists (-1). split; [reflexivity | lia].
    + discriminate.
    + intros H. exfalso. lia.
  - rewrite Z.compare_lt_iff in E. split; split.
    + intros (v & Hv & Hneg). injection Hv as <-. lia.
    + intros H. exfalso. lia.
    + intros _. lia.
    + intros _. reflexivity.
  - rewrite Z.compare_gt_iff in E. split; split.
    + intros _. lia.
    + intros _. exists (-1). split; [reflexivity | lia].
    + discriminate.
    + intros H. exfalso. lia.
Qed.

Lemma sortCombatants_unsorted_is_turn_order_witness :
  (precedes (sortCombatants Reference.engine Reference.resolve
               (MoreExamples.unsorted_table "name"
                  [Examples.goblin1; Examples.orc])
               (Some Examples.orc) (Some Examples.goblin1))
   <-> turn_le [Examples.goblin1; Examples.orc] Examples.orc Examples.goblin1)
  /\ (sortCombatants Reference.engine Reference.resolve
        (MoreExamples.unsorted_table "name"
           [Examples.goblin1; Examples.orc])
        (Some Examples.orc) (Some Examples.goblin1) = Normal 1
      <-> ~ turn_le [Examples.goblin1; Examples.orc] Examples.orc Examples.goblin1).
Proof.
  apply (sortCombatants_unsorted_is_turn_order Reference.engine Reference.resolve
           (MoreExamples.unsorted_table "name" [Examples.goblin1; Examples.orc])
           [Examples.goblin1; Examples.orc] Examples.orc Examples.goblin1).
  - reflexivity.
  - reflexivity.
Defined.

Lemma sortCombatants_numeric_difference_witness :
  sortCombatants Reference.engine Reference.resolve
    (Examples.table "initiative" [Examples.fast; Examples.slow])
    (Some Examples.slow) (Some Examples.fast) = Normal 1.
Proof.
  apply (sortCombatants_numeric_difference Reference.engine Reference.resolve
           (Examples.table "initiative" [Examples.fast; Examples.slow])
           Examples.slow Examples.fast "initiative" (inject_Z 10) (inject_Z 20));
    try reflexivity.
  unfold Qeq. simpl. lia.
Defined.

Lemma sortCombatants_numeric_tie_witness :
  sortCombatants Reference.engine Reference.resolve
    (Examples.table "initiative" [Examples.npc "B" 15 []; Examples.npc "A" 15 []])
    (Some (Examples.npc "B" 15 [])) (Some (Examples.npc "A" 15 []))
  = Normal (if str_lt (id (Examples.npc "A" 15 [])) (id (Examples.npc "B" 15 []))
            then 1 else -1).
Proof.
  apply (sortCombatants_numeric_tie Reference.engine Reference.resolve
           (Examples.table "initiative"
              [Examples.npc "B" 15 []; Examples.npc "A" 15 []])
           (Examples.npc "B" 15 []) (Examples.npc "A" 15 []) "initiative");
    reflexivity.
Defined.

Lemma test_id_pattern_unfold (s : string) :
  test_id_pattern s
  = alnum_prefix 16 s
    || match s with
       | EmptyString => false
       | String _ s' => test_id_pattern s'
       end.
Proof. destruct s; reflexivity. Qed.

Lemma alnum_prefix_length (k : nat) (s : string) :
  alnum_prefix k s = true -> (k <= String.length s)%nat.
Proof.
  revert s. induction k as [| k IH]; intros s H; [lia |].
  destruct s as [| c s]; [discriminate H |].
  simpl in H. apply andb_true_iff in H as [_ H]. apply IH in H. simpl. lia.
Qed.

(** The identifier pattern is not anchored: a string matches as soon as
    sixteen alphanumeric characters in a row occur anywhere in it. *)
Theorem test_id_pattern_anywhere (before s : string) :
  alnum_prefix 16 s = true ->
  test_id_pattern (String.append before s) = true.
Proof.
  intros H. induction before as [| c before IH].
  - simpl String.append. rewrite test_id_pattern_unfold, H. reflexivity.
  - simpl String.append. rewrite test_id_pattern_unfold, IH.
    apply orb_true_r.
Qed.

Lemma test_id_pattern_anywhere_witness :
  test_id_pattern (String.append "Sir " "Supercalifragilistic the Bold") = true.
Proof.
  apply (test_id_pattern_anywhere "Sir " "Supercalifragilistic the Bold").
  reflexivity.
Defined.

(** A string of fewer than sixteen characters never matches the
    identifier pattern. *)
Theorem test_id_pattern_short (s : string) :
  (String.length s < 16)%nat -> test_id_pattern s = false.
Proof.
  induction s as [| c s IH]; intros Hlen.
  - reflexivity.
  - rewrite test_id_pattern_unfold.
    destruct (alnum_prefix 16 (String c s)) eqn:E.
    + apply alnum_prefix_length in E. lia.
    + simpl. apply IH. simpl in Hlen. lia.
Qed.

Lemma test_id_pattern_short_witness :
  test_id_pattern "Goblin" = false.
Proof.
  apply (test_id_pattern_short "Goblin"). simpl. lia.
Defined.

(** ** Further properties of [Ctg.groups] *)

Lemma groups_path_nonempty_witness :
  Forall (fun g : list Combatant => g <> [])
         [[Examples.orc]; [Examples.goblin1; Examples.goblin2]].
Proof.
  apply (groups_path_nonempty Reference.engine Reference.resolve
           (Examples.table "name" [Examples.goblin1; Examples.orc; Examples.goblin2])
           "name").
  - reflexivity.
  - vm_compute. reflexivity.
Defined.

Lemma obj_set_NoDup {V : Type} (k : string) (v : V) (o : list (string * V)) :
  NoDup (map fst o) -> NoDup (map fst (obj_set k v o)).
Proof.
  induction o as [| [k' v'] o IH]; simpl; intros Hnd.
  - constructor; [intros [] | constructor].
  - apply NoDup_cons_iff in Hnd as [Hk' Hrest].
    destruct (k' =? k)%string eqn:E; simpl.
    + constructor; assumption.
    + constructor; [| apply IH, Hrest].
      intros Hin. apply obj_set_keys in Hin as [-> | Hin]; [| contradiction].
      rewrite String.eqb_refl in E. discriminate E.
Qed.

Lemma obj_set_append_keyed (key : Combatant -> string) (c : Combatant)
      (o : list (string * list Combatant)) :
  Forall (fun e => Forall (fun m => key m = fst e) (snd e)) o ->
  Forall (fun e => Forall (fun m => key m = fst e) (snd e))
    (obj_set (key c)
       (match lookup (key c) o with Some m => m | None => [] end ++ [c]) o).
Proof.
  induction o as [| [k' v'] o IH]; simpl; intros H.
  - repeat constructor.
  - apply Forall_cons_iff in H as [Hhead Hrest]. simpl in Hhead.
    destruct (k' =? key c)%string eqn:E; simpl.
    + apply String.eqb_eq in E. constructor; [| exact Hrest]. simpl.
      apply Forall_app. split; [exact Hhead |].
      constructor; [symmetry; exact E | constructor].
    + constructor; [exact Hhead | apply IH, Hrest].
Qed.

Lemma keyed_groups_Permutation (key : Combatant -> string)
      (gs gs' : list (list Combatant)) :
  Permutation gs gs' -> keyed_groups key gs -> keyed_groups key gs'.
Proof.
  intros Hp (keys & Hnd & Hall).
  destruct (Permutation_Forall2 Hp Hall) as (keys' & Hpk & Hall').
  exists keys'. split; [apply (Permutation_NoDup Hpk Hnd) | exact Hall'].
Qed.

Lemma keyed_groups_members (key : Combatant -> string)
      (gs gs' : list (list Combatant)) :
  Forall2 (@Permutation Combatant) gs gs' ->
  keyed_groups key gs -> keyed_groups key gs'.
Proof.
  intros Hp (keys & Hnd & Hall). exists keys. split; [exact Hnd |].
  clear Hnd. revert keys Hall.
  induction Hp as [| g g' l l' Hg _ IH]; intros keys Hall.
  - inversion Hall. constructor.
  - inversion Hall as [| ? k ? ks Hk Hrest]; subst.
    constructor; [| apply IH, Hrest].
    eapply Permutation_Forall; [exact Hg | exact Hk].
Qed.

Lemma keyed_groups_key_listed (key : Combatant -> string)
      (gs : list (list Combatant)) (keys : list string)
      (g : list Combatant) (c : Combatant) :
  Forall2 (fun group k => Forall (fun m => key m = k) group) gs keys ->
  In g gs -> In c g -> In (key c) keys.
Proof.
  induction 1 as [| g0 k l ks Hk _ IH]; simpl; intros Hg Hc.
  - contradiction.
  - destruct Hg as [-> | Hg].
    + left. rewrite Forall_forall in Hk. symmetry. apply Hk, Hc.
    + right. apply IH; assumption.
Qed.

Lemma keyed_groups_same_key (key : Combatant -> string)
      (gs : list (list Combatant)) :
  keyed_groups key gs ->
  (forall g a b, In g gs -> In a g -> In b g -> key a = key b)
  /\ (forall g1 g2 a b, In g1 gs -> In g2 gs -> In a g1 -> In b g2 ->
                        key a = key b -> g1 = g2).
Proof.
  intros (keys & Hnd & Hall). split.
  - clear Hnd. induction Hall as [| g0 k l ks Hk _ IH]; intros g a b Hg Ha Hb.
    + contradiction.
    + destruct Hg as [-> | Hg]; [| apply (IH g); assumption].
      rewrite Forall_forall in Hk. rewrite (Hk a Ha), (Hk b Hb). reflexivity.
  - induction Hall as [| g0 k l ks Hk Hrest IH];
      intros g1 g2 a b Hg1 Hg2 Ha Hb Hab.
    + contradiction.
    + apply NoDup_cons_iff in Hnd as [Hout Hnd].
      rewrite Forall_forall in Hk.
      destruct Hg1 as [-> | Hg1], Hg2 as [-> | Hg2].
      * reflexivity.
      * exfalso. apply Hout. rewrite <- (Hk a Ha), Hab.
        apply (keyed_groups_key_listed key l ks g2 b Hrest Hg2 Hb).
      * exfalso. apply Hout. rewrite <- (Hk b Hb), <- Hab.
        apply (keyed_groups_key_listed key l ks g1 a Hrest Hg1 Ha).
      * apply (IH Hnd g1 g2 a b); assumption.
Qed.

Section GroupKeys.

Variable host : Host.
Variable resolve : option Combatant -> string -> JsVal.
Variable game : Game.

Lemma reduce_reducer_keyed (path : string) (turns : list Combatant)
      (acc acc' : list (string * list Combatant)) :
  reduce (reducer host resolve game path) turns acc = Normal acc' ->
  NoDup (map fst acc) ->
  Forall (fun e => Forall (fun m => bucket_key host resolve path m = fst e) (snd e)) acc ->
  NoDup (map fst acc')
  /\ Forall (fun e => Forall (fun m => bucket_key host resolve path m = fst e) (snd e))
            acc'.
Proof.
  revert acc. induction turns as [| current rest IH]; intros acc H Hnd Hk;
    simpl in H.
  - injection H as <-. split; assumption.
  - apply bind_Normal in H as (acc1 & H1 & H).
    apply (IH _ H);
      apply (reducer_Normal host resolve game) in H1 as [[_ ->] | (_ & _ & ->)];
      try assumption.
    + apply obj_set_NoDup, Hnd.
    + apply (obj_set_append_keyed (bucket_key host resolve path) current acc Hk).
Qed.

Lemma path_groups_keyed (mode path : string) (unsorted : list (list Combatant)) :
  path_of_mode game mode = Normal path ->
  path_groups host resolve game mode = Normal unsorted ->
  keyed_groups (bucket_key host resolve path) unsorted.
Proof.
  intros Hp H. unfold path_groups in H. rewrite Hp in H. simpl in H.
  destruct (combat game) as [turns |]; [| discriminate H].
  apply bind_Normal in H as (acc & Hacc & H). injection H as <-.
  eapply keyed_groups_Permutation;
    [apply Permutation_sym, Object_values_Permutation |].
  destruct (reduce_reducer_keyed path turns [] acc Hacc) as [Hnd Hk];
    [constructor | constructor |].
  exists (map fst acc).
  split; [exact Hnd |].
  clear Hnd Hacc. induction Hk as [| e l He _ IH]; simpl; constructor; assumption.
Qed.

End GroupKeys.

(** In a path-based mode the groups are the classes of the property key
    of the resolved value: the members of a group share their key, and
    two combatants with the same key are in the same group. *)
Theorem groups_path_by_key
        (host : Host) (resolve : option Combatant -> string -> JsVal)
        (game : Game) (mode path : string) (result : list (list Combatant)) :
  (mode =? "mob")%string && mobAttackToolActive game = false ->
  path_of_mode game mode = Normal path ->
  snd (groups host resolve game mode) = Normal (Some result) ->
  (forall g a b, In g result -> In a g -> In b g ->
                 bucket_key host resolve path a = bucket_key host resolve path b)
  /\ (forall g1 g2 a b, In g1 result -> In g2 result -> In a g1 -> In b g2 ->
         bucket_key host resolve path a = bucket_key host resolve path b ->
         g1 = g2).
Proof.
  intros Hmob Hp. unfold groups.
  destruct (existsb (String.eqb mode) (map fst (MODES game))); simpl;
    [| discriminate].
  rewrite Hmob. simpl. intros H.
  apply bind_Normal in H as (unsorted & Hu & H).
  apply bind_Normal in H as (sorted & Hs & H). injection H as <-.
  apply keyed_groups_same_key.
  unfold sort_groups in Hs. apply bind_Normal in Hs as (each & He & Hs).
  eapply keyed_groups_Permutation; [apply (sort_Permutation _ _ _ Hs) |].
  eapply keyed_groups_members.
  - apply mapM_Forall2 in He. eapply Forall2_impl; [| exact He].
    intros g g' Hg. apply (sort_Permutation _ _ _ Hg).
  - apply (path_groups_keyed host resolve game mode path unsorted Hp Hu).
Qed.

Lemma groups_path_by_key_witness :
  (forall g a b,
      In g [[Examples.orc]; [Examples.goblin1; Examples.goblin2]] ->
      In a g -> In b g ->
      bucket_key Reference.engine Reference.resolve "name" a
      = bucket_key Reference.engine Reference.resolve "name" b)
  /\ (forall g1 g2 a b,
         In g1 [[Examples.orc]; [Examples.goblin1; Examples.goblin2]] ->
         In g2 [[Examples.orc]; [Examples.goblin1; Examples.goblin2]] ->
         In a g1 -> In b g2 ->
         bucket_key Reference.engine Reference.resolve "name" a
         = bucket_key Reference.engine Reference.resolve "name" b ->
         g1 = g2).
Proof.
  apply (groups_path_by_key Reference.engine Reference.resolve
           (Examples.table "name" [Examples.goblin1; Examples.orc; Examples.goblin2])
           "name" "name").
  - reflexivity.
  - reflexivity.
  - vm_compute. reflexivity.
Defined.

(** When every combatant of the turn order is skipped, and so when the
    turn order is empty, [Ctg.groups] returns the empty list of groups. *)
Theorem groups_nothing_to_group
        (host : Host) (resolve : option Combatant -> string -> JsVal)
        (game : Game) (mode : string) (turns : list Combatant) :
  combat game = Some turns ->
  In mode (map fst (MODES game)) ->
  (mode =? "mob")%string && mobAttackToolActive game = false ->
  (forall c, In c turns -> skipped game c = true) ->
  groups host resolve game mode = ([], Normal (Some [])).
Proof.
  intros Hc Hm Hmob Hall. unfold groups.
  assert (He : existsb (String.eqb mode) (map fst (MODES game)) = true).
  { apply existsb_exists. exists mode. split; [exact Hm | apply String.eqb_refl]. }
  rewrite He, Hmob. simpl.
  destruct (path_of_mode_configured game mode Hm) as (path & Hp).
  destruct (path_groups_partition host resolve game mode path turns Hc Hp)
    as (unsorted & -> & Hperm & Hne).
  { intros c Hin Hg. rewrite grouped_not_skipped, (Hall c Hin) in Hg.
    discriminate Hg. }
  assert (Hnil : filter (grouped game) turns = []).
  { clear - Hall. induction turns as [| c rest IH]; [reflexivity |].
    simpl. rewrite grouped_not_skipped, (Hall c (or_introl eq_refl)). simpl.
    apply IH. intros c' Hc'. apply Hall. right. exact Hc'. }
  rewrite Hnil in Hperm. apply Permutation_sym, Permutation_nil in Hperm.
  destruct unsorted as [| g rest]; [reflexivity |].
  exfalso. inversion Hne as [| ? ? Hg _]; subst.
  simpl in Hperm. apply app_eq_nil in Hperm as [Hg' _]. contradiction.
Qed.

Lemma groups_nothing_to_group_witness :
  groups Reference.engine Reference.resolve
         (Examples.table "name" [MoreExamples.unseen]) "name"
  = ([], Normal (Some [])).
Proof.
  apply (groups_nothing_to_group Reference.engine Reference.resolve
           (Examples.table "name" [MoreExamples.unseen]) "name"
           [MoreExamples.unseen]).
  - reflexivity.
  - simpl. do 2 right. left. reflexivity.
  - reflexivity.
  - simpl. intros c [<- | []]. reflexivity.
Defined.

Lemma sortCombatants_unsorted_value
      (host : Host) (resolve : option Combatant -> string -> JsVal)
      (game : Game) (turns : list Combatant) (a b : option Combatant) :
  setting_sortCombatants (settings game) = false ->
  combat game = Some turns ->
  sortCombatants host resolve game a b
  = Normal (if indexOf turns b <? indexOf turns a then 1 else -1).
Proof.
  intros Hs Hc. unfold sortCombatants, combat_indexOf.
  rewrite Hs, Hc, js_gt_numbers.
  change (num_lt (Fin (inject_Z (indexOf turns b)))
                 (Fin (inject_Z (indexOf turns a))))
    with (match (inject_Z (indexOf turns b) ?= inject_Z (indexOf turns a))%Q
          with Lt => true | _ => false end).
  rewrite Qcompare_inject_Z. unfold Z.ltb. reflexivity.
Qed.

(** With sorting off, the members of every group are listed in turn
    order, and the groups are listed by the turn of their first member. *)
Theorem groups_unsorted_in_turn_order
        (host : Host) (resolve : option Combatant -> string -> JsVal)
        (game : Game) (mode : string) (turns : list Combatant)
        (result : list (list Combatant)) :
  setting_sortCombatants (settings game) = false ->
  combat game = Some turns ->
  snd (groups host resolve game mode) = Normal (Some result) ->
  Forall (StronglySorted (turn_le turns)) result
  /\ StronglySorted (first_turn_le turns) result.
Proof.
  intros Hs Hc. unfold groups.
  destruct (existsb (String.eqb mode) (map fst (MODES game))); simpl;
    [| discriminate].
  destruct (if (mode =? "mob")%string && mobAttackToolActive game
            then mob_groups game
            else ([], path_groups host resolve game mode)) as (log & built).
  simpl. intros H.
  apply bind_Normal in H as (unsorted & _ & H).
  apply bind_Normal in H as (sorted & Hsorted & H). injection H as <-.
  unfold sort_groups in Hsorted.
  apply bind_Normal in Hsorted as (each & Heach & Hsorted).
  assert (Hmembers : Forall (StronglySorted (turn_le turns)) each).
  { apply Forall_forall. intros g Hg.
    destruct (mapM_In _ _ _ _ Heach Hg) as (g0 & _ & Hg0).
    eapply (sort_sorted _ (turn_le turns)); [| | exact Hg0].
    - intros x y z. unfold turn_le. apply Z.le_trans.
    - intros x y _ _. unfold compare_members.
      rewrite (sortCombatants_unsorted_value host resolve game turns _ _ Hs Hc).
      eexists. split; [reflexivity |]. unfold turn_le.
      destruct (indexOf turns (Some y) <? indexOf turns (Some x)) eqn:E;
        [apply Z.ltb_lt in E | apply Z.ltb_ge in E]; split; lia. }
  split.
  - eapply Permutation_Forall; [apply (sort_Permutation _ _ _ Hsorted) | exact Hmembers].
  - eapply (sort_sorted _ (first_turn_le turns)); [| | exact Hsorted].
    + intros x y z. unfold first_turn_le. apply Z.le_trans.
    + intros x y _ _. unfold compare_groups.
      rewrite (sortCombatants_unsorted_value host resolve game turns _ _ Hs Hc).
      eexists. split; [reflexivity |]. unfold first_turn_le.
      destruct (indexOf turns (hd_error y) <? indexOf turns (hd_error x)) eqn:E;
        [apply Z.ltb_lt in E | apply Z.ltb_ge in E]; split; lia.
Qed.

Lemma groups_unsorted_in_turn_order_witness :
  Forall (StronglySorted
            (turn_le [Examples.goblin1; Examples.orc; Examples.goblin2]))
         [[Examples.goblin1; Examples.goblin2]; [Examples.orc]]
  /\ StronglySorted
       (first_turn_le [Examples.goblin1; Examples.orc; Examples.goblin2])
       [[Examples.goblin1; Examples.goblin2]; [Examples.orc]].
Proof.
  apply (groups_unsorted_in_turn_order Reference.engine Reference.resolve
           (MoreExamples.unsorted_table "name"
              [Examples.goblin1; Examples.orc; Examples.goblin2])
           "name" [Examples.goblin1; Examples.orc; Examples.goblin2]).
  - reflexivity.
  - reflexivity.
  - vm_compute. reflexivity.
Defined.

(** ** The mob branch *)

Lemma existsb_eqb_In (i : string) (l : list string) :
  existsb (String.eqb i) l = true <-> In i l.
Proof.
  rewrite existsb_exists. split.
  - intros (x & Hx & E). apply String.eqb_eq in E. subst x. exact Hx.
  - intros H. exists i. split; [exact H | apply String.eqb_refl].
Qed.

Lemma filter_selected_spec (alreadyInMob ids kept seen : list string)
      (log : list Event) :
  filter_selected alreadyInMob ids = (kept, (seen, log)) ->
  seen = alreadyInMob ++ ids
  /\ NoDup kept
  /\ (forall i, In i kept -> ~ In i alreadyInMob /\ In i ids)
  /\ (forall i, In i ids -> In i alreadyInMob \/ In i kept)
  /\ (length kept + length log = length ids)%nat.
Proof.
  revert alreadyInMob kept seen log.
  induction ids as [| i rest IH]; intros alreadyInMob kept seen log H; simpl in H.
  - injection H as <- <- <-. rewrite app_nil_r.
    repeat split; try constructor; try contradiction.
  - destruct (filter_selected (alreadyInMob ++ [i]) rest)
      as (kept0 & seen0 & log0) eqn:E.
    destruct (IH _ _ _ _ E) as (Hseen & Hnd & Hin & Hcover & Hlen).
    injection H as <- <- <-.
    split; [rewrite Hseen, <- app_assoc; reflexivity |].
    destruct (existsb (String.eqb i) alreadyInMob) eqn:Ealready.
    + apply existsb_eqb_In in Ealready.
      split; [exact Hnd |]. split; [| split].
      * intros x Hx. destruct (Hin x Hx) as [Hout Hrest].
        split; [| right; exact Hrest].
        intros Hx'. apply Hout, in_or_app. left. exact Hx'.
      * intros x [<- | Hx]; [left; exact Ealready |].
        destruct (Hcover x Hx) as [Hs | Hk]; [| right; exact Hk].
        apply in_app_or in Hs as [Hs | [<- | []]]; left; assumption.
      * simpl. lia.
    + assert (Hi : ~ In i alreadyInMob).
      { intros Hi. apply existsb_eqb_In in Hi. congruence. }
      split; [| split; [| split]].
      * constructor; [| exact Hnd].
        intros Hk. apply (Hin i) in Hk as [Hout _].
        apply Hout, in_or_app. right. left. reflexivity.
      * intros x [<- | Hx]; [split; [exact Hi | left; reflexivity] |].
        destruct (Hin x Hx) as [Hout Hrest]. split; [| right; exact Hrest].
        intros Hx'. apply Hout, in_or_app. left. exact Hx'.
      * intros x [<- | Hx]; [right; left; reflexivity |].
        destruct (Hcover x Hx) as [Hs | Hk]; [| right; right; exact Hk].
        apply in_app_or in Hs as [Hs | [<- | []]];
          [left; exact Hs | right; left; reflexivity].
      * simpl. lia.
Qed.

Lemma mob_members_spec (game : Game) (alreadyInMob : list string)
      (mobs : list (list string)) (arrs : list (list (option Combatant)))
      (log : list Event) :
  mob_members game alreadyInMob mobs = (arrs, log) ->
  exists kept,
    arrs = map (map (tokenCombatant game)) kept
    /\ NoDup (concat kept)
    /\ (forall i, In i (concat kept) -> ~ In i alreadyInMob /\ In i (concat mobs))
    /\ (forall i, In i (concat mobs) -> In i alreadyInMob \/ In i (concat kept))
    /\ (length (concat kept) + length log = length (concat mobs))%nat.
Proof.
  revert alreadyInMob arrs log.
  induction mobs as [| mob rest IH]; intros alreadyInMob arrs log H; simpl in H.
  - injection H as <- <-. exists []. simpl.
    repeat split; try constructor; try contradiction.
  - destruct (filter_selected alreadyInMob mob) as (kept0 & seen0 & log0) eqn:E.
    destruct (mob_members game seen0 rest) as (arrs1 & log1) eqn:E1.
    injection H as <- <-.
    destruct (filter_selected_spec _ _ _ _ _ E)
      as (Hseen & Hnd0 & Hin0 & Hcover0 & Hlen0).
    destruct (IH _ _ _ E1) as (kept1 & -> & Hnd1 & Hin1 & Hcover1 & Hlen1).
    subst seen0. exists (kept0 :: kept1). simpl.
    split; [reflexivity |]. split; [| split; [| split]].
    + apply NoDup_app; [exact Hnd0 | exact Hnd1 |].
      intros x Hx0 Hx1. apply Hin1 in Hx1 as [Hout _].
      apply Hout, in_or_app. right. apply (Hin0 x Hx0).
    + intros x Hx. apply in_app_or in Hx as [Hx | Hx].
      * destruct (Hin0 x Hx) as [Hout Hmob].
        split; [exact Hout | apply in_or_app; left; exact Hmob].
      * destruct (Hin1 x Hx) as [Hout Hrest].
        split; [| apply in_or_app; right; exact Hrest].
        intros Hx'. apply Hout, in_or_app. left. exact Hx'.
    + intros x Hx. apply in_app_or in Hx as [Hx | Hx].
      * destruct (Hcover0 x Hx) as [Hs | Hk]; [left; exact Hs |].
        right. apply in_or_app. left. exact Hk.
      * destruct (Hcover1 x Hx) as [Hs | Hk].
        -- apply in_app_or in Hs as [Hs | Hs]; [left; exact Hs |].
           destruct (Hcover0 x Hs) as [Hs' | Hk]; [left; exact Hs' |].
           right. apply in_or_app. left. exact Hk.
        -- right. apply in_or_app. right. exact Hk.
    + rewrite !length_app. lia.
Qed.

Lemma defined_app {A : Type} (l1 l2 : list (option A)) :
  defined (l1 ++ l2) = defined l1 ++ defined l2.
Proof.
  induction l1 as [| [x |] l1 IH]; simpl; [reflexivity | f_equal; exact IH | exact IH].
Qed.

Lemma defined_sorted {A : Type} (l : list A) (n : nat) :
  defined (map Some l ++ repeat None n) = l.
Proof.
  rewrite defined_app.
  replace (defined (repeat (@None A) n)) with (@nil A)
    by (induction n; simpl; auto).
  rewrite app_nil_r. induction l as [| x l IH]; simpl; [reflexivity | f_equal; exact IH].
Qed.

Lemma defined_concat {A : Type} (ls : list (list (option A))) :
  defined (concat ls) = concat (map (@defined A) ls).
Proof.
  induction ls as [| l ls IH]; simpl; [reflexivity |].
  rewrite defined_app, IH. reflexivity.
Qed.

Lemma mob_groups_members (game : Game) (arrs : list (list (option Combatant))) :
  exists unsorted,
    mapM (fun arr => sorted <- sort_undefined_last (sortByTurns game) arr ;;
                     Normal (defined sorted)) arrs = Normal unsorted
    /\ Forall2 (fun arr g => Permutation (defined arr) g) arrs unsorted.
Proof.
  induction arrs as [| arr rest (unsorted & Hu & Hall)]; simpl.
  - exists []. split; [reflexivity | constructor].
  - destruct (sort_total (sortByTurns game) (defined arr)) as (sorted & Hs).
    { intros x y _ _. eexists. reflexivity. }
    rewrite Hu. unfold sort_undefined_last. rewrite Hs. simpl.
    eexists. split; [reflexivity |]. constructor; [| exact Hall].
    rewrite defined_sorted. apply (sort_Permutation _ _ _ Hs).
Qed.

Section Undefined.

Variable host : Host.
Variable resolve : option Combatant -> string -> JsVal.
Variable game : Game.

(** On arguments that may be [undefined] the comparator still returns,
    as long as the value resolved for [undefined] is not numeric. *)
Lemma sortCombatants_returns_on_undefined (a b : option Combatant) :
  (setting_sortCombatants (settings game) = false
   \/ exists path,
        path_of_mode game (setting_mode (settings game)) = Normal path
        /\ isNumeric host (resolve None path) = false) ->
  exists v, sortCombatants host resolve game a b = Normal v.
Proof.
  intros H. unfold sortCombatants.
  destruct (setting_sortCombatants (settings game)).
  - destruct H as [H | (path & Hp & Hn)]; [discriminate H |].
    rewrite Hp. simpl.
    destruct (both_boolean _ _); [eexists; reflexivity |].
    destruct (both_numeric host (resolve a path) (resolve b path)) eqn:Hnum.
    + unfold both_numeric in Hnum. apply andb_true_iff in Hnum as [Hna Hnb].
      destruct a as [a |]; [| congruence].
      destruct b as [b |]; [| congruence].
      destruct (num_nonzero _); simpl; eexists; reflexivity.
    + destruct (both_object _ _); [eexists; reflexivity |].
      destruct (both_string _ _); [| eexists; reflexivity].
      destruct (test_id_pattern _ && test_id_pattern _); eexists; reflexivity.
  - eexists. reflexivity.
Qed.

Lemma sort_groups_any (unsorted : list (list Combatant)) :
  (setting_sortCombatants (settings game) = false
   \/ exists path,
        path_of_mode game (setting_mode (settings game)) = Normal path
        /\ isNumeric host (resolve None path) = false) ->
  exists result,
    sort_groups host resolve game unsorted = Normal result
    /\ Permutation (concat result) (concat unsorted)
    /\ length result = length unsorted.
Proof.
  intros Hok. unfold sort_groups.
  destruct (mapM_total (sort (compare_members host resolve game)) unsorted)
    as (each & Heach).
  { apply Forall_forall. intros g _. apply sort_total.
    intros a b _ _. apply sortCombatants_returns_on_undefined, Hok. }
  rewrite Heach. simpl. apply mapM_Forall2 in Heach.
  destruct (sort_total (compare_groups host resolve game) each) as (result & Hres).
  { intros g g' _ _. apply sortCombatants_returns_on_undefined, Hok. }
  exists result. split; [exact Hres |].
  apply sort_Permutation in Hres. split.
  - eapply perm_trans; [apply concat_Permutation, Permutation_sym, Hres |].
    apply Permutation_sym, concat_Forall2_Permutation.
    eapply Forall2_impl; [| exact Heach].
    intros g g' Hg. apply (sort_Permutation _ _ _ Hg).
  - rewrite <- (Permutation_length Hres). symmetry.
    apply (Forall2_length Heach).
Qed.

End Undefined.

(** In the mob mode every distinct token id of the saved mobs gives its
    combatant to the groups exactly once, whichever mobs list it and
    however often; there is one group for each saved mob and one warning
    for each repeated occurrence of a token id. The comparator has to
    return on the first member of a group that has none, which it does
    when sorting is off or the value resolved for [undefined] is not
    numeric. *)
Theorem groups_mob_tokens_once
        (host : Host) (resolve : option Combatant -> string -> JsVal)
        (game : Game) :
  In "mob" (map fst (MODES game)) ->
  mobAttackToolActive game = true ->
  (setting_sortCombatants (settings game) = false
   \/ exists path,
        path_of_mode game (setting_mode (settings game)) = Normal path
        /\ isNumeric host (resolve None path) = false) ->
  exists log result tokens,
    groups host resolve game "mob" = (log, Normal (Some result))
    /\ NoDup tokens
    /\ (forall i, In i tokens <-> In i (concat (hiddenMobList game)))
    /\ Permutation (concat result) (defined (map (tokenCombatant game) tokens))
    /\ length result = length (hiddenMobList game)
    /\ (length tokens + length log = length (concat (hiddenMobList game)))%nat.
Proof.
  intros Hm Hmat Hok. unfold groups.
  assert (He : existsb (String.eqb "mob") (map fst (MODES game)) = true).
  { apply existsb_exists. exists "mob". split; [exact Hm | reflexivity]. }
  rewrite He, Hmat. simpl. unfold mob_groups.
  destruct (mob_members game [] (hiddenMobList game)) as (arrs & log) eqn:E.
  destruct (mob_members_spec game _ _ _ _ E)
    as (kept & -> & Hnd & Hin & Hcover & Hlen).
  destruct (mob_groups_members game (map (map (tokenCombatant game)) kept))
    as (unsorted & -> & Hall).
  simpl.
  destruct (sort_groups_any host resolve game unsorted Hok)
    as (result & -> & Hperm & Hlength).
  simpl. exists log, result, (concat kept).
  split; [reflexivity |]. split; [exact Hnd |]. split; [| split; [| split]].
  - intros i. split.
    + intros Hi. apply (Hin i Hi).
    + intros Hi. destruct (Hcover i Hi) as [[] | Hk]. exact Hk.
  - eapply perm_trans; [exact Hperm |].
    rewrite concat_map, defined_concat.
    apply Permutation_sym, concat_Forall2_Permutation.
    clear - Hall. remember (map (map (tokenCombatant game)) kept) as arrs.
    clear Heqarrs. induction Hall; simpl; constructor; assumption.
  - rewrite Hlength, <- (Forall2_length Hall), !length_map.
    clear - E. revert E. generalize (@nil string) as seen.
    revert kept log.
    induction (hiddenMobList game) as [| mob rest IH]; intros kept log seen E;
      simpl in E.
    + injection E as E _. destruct kept; [reflexivity | discriminate E].
    + destruct (filter_selected seen mob) as (k0 & s0 & l0).
      destruct (mob_members game s0 rest) as (a1 & l1) eqn:E1.
      injection E as E _. destruct kept as [| k kept]; [discriminate E |].
      simpl in E. injection E as _ E. simpl. f_equal.
      apply (IH kept l1 s0). rewrite E1, E. reflexivity.
  - exact Hlen.
Qed.

Lemma groups_mob_tokens_once_witness :
  exists log result tokens,
    groups Reference.engine Reference.resolve MoreExamples.mobs_table "mob"
    = (log, Normal (Some result))
    /\ NoDup tokens
    /\ (forall i, In i tokens
                  <-> In i (concat (hiddenMobList MoreExamples.mobs_table)))
    /\ Permutation (concat result)
         (defined (map (tokenCombatant MoreExamples.mobs_table) tokens))
    /\ length result = length (hiddenMobList MoreExamples.mobs_table)
    /\ (length tokens + length log
        = length (concat (hiddenMobList MoreExamples.mobs_table)))%nat.
Proof.
  apply (groups_mob_tokens_once Reference.engine Reference.resolve
           MoreExamples.mobs_table).
  - simpl. do 5 right. left. reflexivity.
  - reflexivity.
  - right. exists "". split; reflexivity.
Defined.

(** ** Managing the modes *)

Lemma has_mode_In (key : string) (modes : list (string * string)) :
  has_mode key modes = true <-> In key (map fst modes).
Proof.
  unfold has_mode. rewrite existsb_exists, in_map_iff. split.
  - intros (m & Hm & E). apply String.eqb_eq in E. exists m. split; assumption.
  - intros (m & E & Hm). exists m. split; [exact Hm |].
    rewrite E. apply String.eqb_refl.
Qed.

Lemma findSplice_In {A : Type} (find : A -> bool) (arr : list A) (x : A) :
  In x (findSplice find arr) -> In x arr.
Proof.
  induction arr as [| y arr IH]; simpl; [auto |].
  destruct (find y); [auto |]. intros [<- | H]; auto.
Qed.

Lemma findSplice_keeps {A : Type} (find : A -> bool) (arr : list A) (x : A) :
  In x arr -> find x = false -> In x (findSplice find arr).
Proof.
  induction arr as [| y arr IH]; simpl; [auto |].
  intros [<- | H] Hx.
  - rewrite Hx. left. reflexivity.
  - destruct (find y); [exact H | right; apply IH; assumption].
Qed.

Lemma findSplice_nothing {A : Type} (find : A -> bool) (arr : list A) :
  (forall x, In x arr -> find x = false) -> findSplice find arr = arr.
Proof.
  induction arr as [| y arr IH]; simpl; intros H; [reflexivity |].
  rewrite (H y (or_introl eq_refl)). f_equal. apply IH.
  intros x Hx. apply H. right. exact Hx.
Qed.

Lemma findSplice_NoDup (key : string) (modes : list (string * string)) :
  NoDup (map fst modes) ->
  NoDup (map fst (findSplice (fun m => (fst m =? key)%string) modes))
  /\ ~ In key (map fst (findSplice (fun m => (fst m =? key)%string) modes)).
Proof.
  induction modes as [| [k p] modes IH]; simpl; intros Hnd.
  - split; [constructor | auto].
  - apply NoDup_cons_iff in Hnd as [Hk Hrest].
    destruct (k =? key)%string eqn:E.
    + apply String.eqb_eq in E. subst k. split; assumption.
    + destruct (IH Hrest) as [Hnd' Hout]. simpl. split.
      * constructor; [| exact Hnd'].
        intros Hin. apply Hk. apply in_map_iff in Hin as (m & Hm & Hin).
        apply in_map_iff. exists m. split; [exact Hm |].
        apply (findSplice_In _ _ _ Hin).
      * intros [-> | Hin]; [| contradiction].
        rewrite String.eqb_refl in E. discriminate E.
Qed.

Lemma push_mode_NoDup (key path : string) (modes : list (string * string)) :
  NoDup (map fst modes) ->
  has_mode key modes = false ->
  NoDup (map fst (modes ++ [(key, path)])).
Proof.
  intros Hnd Hout. rewrite map_app. apply NoDup_app.
  - exact Hnd.
  - constructor; [intros [] | constructor].
  - intros k Hk Hin. simpl in Hin. destruct Hin as [E | []]. subst k.
    apply has_mode_In in Hk. rewrite Hk in Hout. discriminate Hout.
Qed.

Lemma manageModes_pushes_distinct (lancer : bool) (game : Game) :
  NoDup (map fst (MODES game)) ->
  NoDup (map fst (fst (manageModes
                         {| lancerInitiativeActive := lancer; scsActive := false |}
                         game))).
Proof.
  intros Hnd. unfold manageModes. simpl.
  set (m1 := if mobAttackToolActive game && negb (has_mode "mob" (MODES game))
             then MODES game ++ [("mob", "")] else MODES game).
  assert (H1 : NoDup (map fst m1)).
  { unfold m1. destruct (mobAttackToolActive game); simpl; [| exact Hnd].
    destruct (has_mode "mob" (MODES game)) eqn:E; simpl; [exact Hnd |].
    apply push_mode_NoDup; assumption. }
  destruct lancer; simpl; [| exact H1].
  destruct (has_mode "lancer" m1) eqn:E; simpl; [exact H1 |].
  apply push_mode_NoDup; assumption.
Qed.

(** [manageModes] keeps the mode keys distinct. *)
Theorem manageModes_keys_distinct (modules : Modules) (game : Game) :
  NoDup (map fst (MODES game)) ->
  NoDup (map fst (fst (manageModes modules game))).
Proof.
  intros Hnd.
  pose proof (manageModes_pushes_distinct (lancerInitiativeActive modules) game Hnd)
    as H2.
  unfold manageModes in *. simpl in *.
  destruct (scsActive modules); [| exact H2].
  apply (findSplice_NoDup "initiative" _ H2).
Qed.

Lemma manageModes_keys_distinct_witness :
  NoDup (map fst (fst (manageModes
                         {| lancerInitiativeActive := true; scsActive := true |}
                         MoreExamples.mobs_table))).
Proof.
  apply (manageModes_keys_distinct
           {| lancerInitiativeActive := true; scsActive := true |}
           MoreExamples.mobs_table).
  simpl. repeat constructor; simpl; intros H;
    repeat (destruct H as [H | H]; [discriminate H |]); exact H.
Defined.

Lemma manageModes_keeps (modules : Modules) (game : Game) (m : string * string) :
  In m (MODES game) ->
  (scsActive modules = true -> fst m <> "initiative") ->
  In m (fst (manageModes modules game)).
Proof.
  intros Hin Hkey. unfold manageModes. simpl.
  set (m1 := if mobAttackToolActive game && negb (has_mode "mob" (MODES game))
             then MODES game ++ [("mob", "")] else MODES game).
  set (m2 := if lancerInitiativeActive modules && negb (has_mode "lancer" m1)
             then m1 ++ [("lancer", "activations.value")] else m1).
  assert (H1 : In m m1).
  { unfold m1.
    destruct (mobAttackToolActive game && negb (has_mode "mob" (MODES game)));
      [apply in_or_app; left |]; exact Hin. }
  assert (H2 : In m m2).
  { unfold m2.
    destruct (lancerInitiativeActive modules && negb (has_mode "lancer" m1));
      [apply in_or_app; left |]; exact H1. }
  destruct (scsActive modules); [| exact H2].
  apply findSplice_keeps; [exact H2 |].
  apply String.eqb_neq, Hkey. reflexivity.
Qed.

Lemma manageModes_has_mob (modules : Modules) (game : Game) :
  mobAttackToolActive game = true ->
  has_mode "mob" (fst (manageModes modules game)) = true.
Proof.
  intros Hmat. unfold manageModes. simpl. rewrite Hmat. simpl.
  set (m1 := if negb (has_mode "mob" (MODES game))
             then MODES game ++ [("mob", "")] else MODES game).
  assert (H1 : has_mode "mob" m1 = true).
  { unfold m1. destruct (has_mode "mob" (MODES game)) eqn:E; simpl; [exact E |].
    apply has_mode_In. rewrite map_app. apply in_or_app. right. left. reflexivity. }
  set (m2 := if lancerInitiativeActive modules && negb (has_mode "lancer" m1)
             then m1 ++ [("lancer", "activations.value")] else m1).
  assert (H2 : has_mode "mob" m2 = true).
  { unfold m2. apply has_mode_In.
    destruct (lancerInitiativeActive modules && negb (has_mode "lancer" m1));
      [rewrite map_app; apply in_or_app; left |]; apply has_mode_In, H1. }
  destruct (scsActive modules); [| exact H2].
  apply has_mode_In in H2. apply in_map_iff in H2 as (m & Hm & Hin).
  apply has_mode_In, in_map_iff. exists m. split; [exact Hm |].
  apply findSplice_keeps; [exact Hin |]. rewrite Hm. reflexivity.
Qed.

Lemma manageModes_has_lancer (modules : Modules) (game : Game) :
  lancerInitiativeActive modules = true ->
  has_mode "lancer" (fst (manageModes modules game)) = true.
Proof.
  intros Hl. unfold manageModes. simpl. rewrite Hl. simpl.
  set (m1 := if mobAttackToolActive game && negb (has_mode "mob" (MODES game))
             then MODES game ++ [("mob", "")] else MODES game).
  set (m2 := if negb (has_mode "lancer" m1)
             then m1 ++ [("lancer", "activations.value")] else m1).
  assert (H2 : has_mode "lancer" m2 = true).
  { unfold m2. destruct (has_mode "lancer" m1) eqn:E; simpl; [exact E |].
    apply has_mode_In. rewrite map_app. apply in_or_app. right. left. reflexivity. }
  destruct (scsActive modules); [| exact H2].
  apply has_mode_In in H2. apply in_map_iff in H2 as (m & Hm & Hin).
  apply has_mode_In, in_map_iff. exists m. split; [exact Hm |].
  apply findSplice_keeps; [exact Hin |]. rewrite Hm. reflexivity.
Qed.

Lemma manageModes_no_initiative (modules : Modules) (game : Game) :
  scsActive modules = true ->
  NoDup (map fst (MODES game)) ->
  ~ In "initiative" (map fst (fst (manageModes modules game))).
Proof.
  intros Hscs Hnd.
  pose proof (manageModes_pushes_distinct (lancerInitiativeActive modules) game Hnd)
    as H2.
  unfold manageModes in *. simpl in *. rewrite Hscs.
  apply (findSplice_NoDup "initiative" _ H2).
Qed.

(** After [manageModes] the modes of the active integrations are
    configured, "initiative" is not when the scs module is active and
    the keys were distinct, and every other configured mode is kept with
    its path. *)
Theorem manageModes_configures (modules : Modules) (game : Game) :
  (mobAttackToolActive game = true ->
   In "mob" (map fst (fst (manageModes modules game))))
  /\ (lancerInitiativeActive modules = true ->
      In "lancer" (map fst (fst (manageModes modules game))))
  /\ (scsActive modules = true -> NoDup (map fst (MODES game)) ->
      ~ In "initiative" (map fst (fst (manageModes modules game))))
  /\ (forall key path,
         In (key, path) (MODES game) ->
         (scsActive modules = true -> key <> "initiative") ->
         In (key, path) (fst (manageModes modules game))).
Proof.
  split; [| split; [| split]].
  - intros H. apply has_mode_In, manageModes_has_mob, H.
  - intros H. apply has_mode_In, manageModes_has_lancer, H.
  - apply manageModes_no_initiative.
  - intros key path Hin Hkey. apply manageModes_keeps; assumption.
Qed.

Lemma manageModes_configures_witness :
  In "mob" (map fst (fst (manageModes
                            {| lancerInitiativeActive := false; scsActive := true |}
                            MoreExamples.mobs_table))).
Proof.
  apply (proj1 (manageModes_configures
                  {| lancerInitiativeActive := false; scsActive := true |}
                  MoreExamples.mobs_table)).
  reflexivity.
Defined.

Lemma groups_configured_mode_result
      (host : Host) (resolve : option Combatant -> string -> JsVal)
      (game : Game) (mode : string) :
  In mode (map fst (MODES game)) ->
  snd (groups host resolve game mode) <> Normal None.
Proof.
  intros Hin. unfold groups.
  assert (He : existsb (String.eqb mode) (map fst (MODES game)) = true).
  { apply existsb_exists. eexists. split; [exact Hin | apply String.eqb_refl]. }
  rewrite He. simpl.
  destruct (if (mode =? "mob")%string && mobAttackToolActive game
            then mob_groups game
            else ([], path_groups host resolve game mode)) as (log & built).
  simpl.
  destruct built as [unsorted | e]; simpl; [| discriminate].
  destruct (sort_groups host resolve game unsorted); simpl; discriminate.
Qed.

(** Once the two writes of [manageModes] have taken effect, a saved mode
    other than "none" is a configured mode, and [Ctg.groups] does not
    leave by its invalid-mode exit for it. *)
Theorem manageModes_leaves_a_valid_mode
        (host : Host) (resolve : option Combatant -> string -> JsVal)
        (modules : Modules) (game : Game) :
  setting_mode (settings (with_modes game (manageModes modules game))) <> "none" ->
  In (setting_mode (settings (with_modes game (manageModes modules game))))
     (map fst (MODES (with_modes game (manageModes modules game))))
  /\ snd (groups host resolve (with_modes game (manageModes modules game))
                 (setting_mode (settings (with_modes game (manageModes modules game)))))
     <> Normal None.
Proof.
  intros Hnone.
  assert (Hin : In (setting_mode (settings (with_modes game (manageModes modules game))))
                   (map fst (MODES (with_modes game (manageModes modules game))))).
  { revert Hnone. unfold with_modes, MODES. simpl.
    destruct (has_mode (setting_mode (settings game))
                       (fst (manageModes modules game))) eqn:E.
    - unfold manageModes in *. simpl in *. rewrite E. simpl.
      intros _. apply has_mode_In, E.
    - unfold manageModes in *. simpl in *. rewrite E. simpl.
      intros H. contradiction H. reflexivity. }
  split; [exact Hin |].
  apply groups_configured_mode_result, Hin.
Qed.

Lemma manageModes_leaves_a_valid_mode_witness :
  In (setting_mode (settings (with_modes MoreExamples.mobs_table
        (manageModes {| lancerInitiativeActive := false; scsActive := true |}
                     MoreExamples.mobs_table))))
     (map fst (MODES (with_modes MoreExamples.mobs_table
        (manageModes {| lancerInitiativeActive := false; scsActive := true |}
                     MoreExamples.mobs_table))))
  /\ snd (groups Reference.engine Reference.resolve
                 (with_modes MoreExamples.mobs_table
                    (manageModes {| lancerInitiativeActive := false; scsActive := true |}
                                 MoreExamples.mobs_table))
                 (setting_mode (settings (with_modes MoreExamples.mobs_table
                    (manageModes {| lancerInitiativeActive := false; scsActive := true |}
                                 MoreExamples.mobs_table)))))
     <> Normal None.
Proof.
  apply (manageModes_leaves_a_valid_mode Reference.engine Reference.resolve
           {| lancerInitiativeActive := false; scsActive := true |}
           MoreExamples.mobs_table).
  discriminate.
Defined.

(** With distinct mode keys, running [manageModes] again on the settings
    it has written leaves the list of modes as it is. *)
Theorem manageModes_settles (modules : Modules) (game : Game) :
  NoDup (map fst (MODES game)) ->
  fst (manageModes modules (with_modes game (manageModes modules game)))
  = fst (manageModes modules game).
Proof.
  intros Hnd.
  pose proof (manageModes_has_mob modules game) as Hmob.
  pose proof (manageModes_has_lancer modules game) as Hlancer.
  pose proof (manageModes_no_initiative modules game) as Hini.
  remember (fst (manageModes modules game)) as modes eqn:Hmodes.
  assert (Hstep : forall game' : Game,
             MODES game' = modes ->
             mobAttackToolActive game' = mobAttackToolActive game ->
             fst (manageModes modules game') = modes).
  { intros game' HM HA. unfold manageModes. simpl. rewrite HM, HA.
    assert (E1 : mobAttackToolActive game && negb (has_mode "mob" modes) = false).
    { destruct (mobAttackToolActive game); [| reflexivity].
      rewrite Hmob; reflexivity. }
    rewrite E1.
    assert (E2 : lancerInitiativeActive modules && negb (has_mode "lancer" modes)
                 = false).
    { destruct (lancerInitiativeActive modules); [| reflexivity].
      rewrite Hlancer; reflexivity. }
    rewrite E2.
    destruct (scsActive modules); [| reflexivity].
    apply findSplice_nothing. intros m Hm.
    apply String.eqb_neq. intros E. apply (Hini eq_refl Hnd).
    rewrite <- E. apply in_map, Hm. }
  apply Hstep; [| reflexivity].
  rewrite Hmodes. reflexivity.
Qed.

Lemma manageModes_settles_witness :
  fst (manageModes {| lancerInitiativeActive := true; scsActive := true |}
         (with_modes MoreExamples.mobs_table
            (manageModes {| lancerInitiativeActive := true; scsActive := true |}
                         MoreExamples.mobs_table)))
  = fst (manageModes {| lancerInitiativeActive := true; scsActive := true |}
                     MoreExamples.mobs_table).
Proof.
  apply (manageModes_settles
           {| lancerInitiativeActive := true; scsActive := true |}
           MoreExamples.mobs_table).
  simpl. repeat constructor; simpl; intros H;
    repeat (destruct H as [H | H]; [discriminate H |]); exact H.
Defined.

(** ** Rolling initiative for groups *)

Lemma NoDup_app_disjoint {A : Type} (l1 l2 : list A) (x : A) :
  NoDup (l1 ++ l2) -> In x l1 -> In x l2 -> False.
Proof.
  induction l1 as [| y l1 IH]; simpl; intros Hnd H1 H2; [contradiction |].
  apply NoDup_cons_iff in Hnd as [Hy Hnd].
  destruct H1 as [<- | H1].
  - apply Hy, in_or_app. right. exact H2.
  - apply (IH Hnd H1 H2).
Qed.

Lemma groups_share_no_id (groups : list (list Combatant)) (n m : nat)
      (g g' : list Combatant) (c c' : Combatant) :
  NoDup (map id (concat groups)) ->
  nth_error groups n = Some g ->
  nth_error groups m = Some g' ->
  n <> m ->
  In c g -> In c' g' -> id c <> id c'.
Proof.
  revert n m. induction groups as [| g0 rest IH]; intros n m Hnd Hn Hm Hne Hc Hc' E.
  - destruct n; discriminate Hn.
  - simpl in Hnd. rewrite map_app in Hnd.
    destruct n as [| n], m as [| m]; simpl in Hn, Hm.
    + contradiction.
    + injection Hn as ->. apply (NoDup_app_disjoint _ _ (id c) Hnd).
      * apply in_map, Hc.
      * rewrite E. apply in_map, in_concat. exists g'.
        split; [apply (nth_error_In _ _ Hm) | exact Hc'].
    + injection Hm as ->. apply (NoDup_app_disjoint _ _ (id c) Hnd).
      * rewrite E. apply in_map, Hc'.
      * apply in_map, in_concat. exists g.
        split; [apply (nth_error_In _ _ Hn) | exact Hc].
    + apply (IH n m (NoDup_app_remove_l _ _ Hnd) Hn Hm); [lia | | | exact E];
        assumption.
Qed.

Section RollFacts.

Variable isNPC : Combatant -> bool.
Variable total : nat -> nat -> JsNum.

Lemma roll_groups_nth (context : string) (pass : nat) (i : string)
      (groups : list (list Combatant)) (index n : nat) :
  nth_error (roll_groups isNPC total context pass i index groups) n
  = option_map (roll_group isNPC total context pass i (index + n))
               (nth_error groups n).
Proof.
  revert index n. induction groups as [| g rest IH]; intros index n.
  - destruct n; reflexivity.
  - destruct n as [| n]; simpl.
    + rewrite Nat.add_0_r. reflexivity.
    + rewrite IH. replace (S index + n)%nat with (index + S n)%nat by lia.
      reflexivity.
Qed.

Lemma roll_groups_all (pass : nat) (i : string)
      (groups : list (list Combatant)) (index : nat) :
  Forall (fun g => g <> []) groups ->
  exists updates,
    Forall2 (fun outcome u => exists sound, outcome = Rolled u sound)
            (roll_groups isNPC total "rollAll" pass i index groups) updates
    /\ map (map fst) updates = map (map id) groups.
Proof.
  revert index. induction groups as [| g rest IH]; intros index Hne.
  - exists []. split; [constructor | reflexivity].
  - inversion Hne as [| ? ? Hg Hrest]; subst.
    destruct (IH (S index) Hrest) as (updates & Hall & Hmap).
    destruct g as [| c g]; [contradiction |].
    eexists (_ :: updates). split.
    + simpl. constructor; [eexists; reflexivity | exact Hall].
    + simpl. rewrite Hmap, map_map. reflexivity.
Qed.

End RollFacts.

(** Rolling for one combatant rolls for the group it is in and for no
    other group, when no identifier occurs twice in the groups; every
    member of that group is given the same total. *)
Theorem roll_for_one_combatant
        (isNPC : Combatant -> bool) (total : nat -> nat -> JsNum)
        (groups : list (list Combatant)) (pass n : nat)
        (group : list Combatant) (c : Combatant) :
  NoDup (map id (concat groups)) ->
  nth_error groups n = Some group ->
  In c group ->
  nth_error (roll_groups isNPC total "roll" pass (id c) 0 groups) n
  = Some (Rolled (map (fun member => (id member, total pass n)) group)
                 (n =? 0)%nat)
  /\ (forall m, m <> n -> (m < length groups)%nat ->
        nth_error (roll_groups isNPC total "roll" pass (id c) 0 groups) m
        = Some NotRolled).
Proof.
  intros Hnd Hn Hc. split.
  - rewrite roll_groups_nth, Hn. simpl. unfold roll_group. simpl.
    replace (existsb _ group) with true.
    + destruct group; [contradiction | reflexivity].
    + symmetry. apply existsb_exists. exists c.
      split; [exact Hc | apply String.eqb_refl].
  - intros m Hm Hlen. rewrite roll_groups_nth.
    destruct (nth_error groups m) as [g' |] eqn:Hg';
      [| apply nth_error_None in Hg'; lia].
    simpl. unfold roll_group. simpl.
    destruct (existsb _ g') eqn:E; [| reflexivity].
    exfalso. apply existsb_exists in E as (c' & Hc' & E).
    apply String.eqb_eq in E.
    apply (groups_share_no_id groups n m group g' c c' Hnd Hn Hg');
      [auto | exact Hc | exact Hc' | symmetry; exact E].
Qed.

Lemma roll_for_one_combatant_witness :
  nth_error (roll_groups (fun _ => true) (fun _ _ => Fin 17) "roll" 0
                         (id Examples.goblin2) 0
                         [[Examples.orc]; [Examples.goblin1; Examples.goblin2]]) 1
  = Some (Rolled (map (fun member => (id member, Fin 17))
                      [Examples.goblin1; Examples.goblin2])
                 (1 =? 0)%nat)
  /\ (forall m, m <> 1%nat ->
        (m < length [[Examples.orc]; [Examples.goblin1; Examples.goblin2]])%nat ->
        nth_error (roll_groups (fun _ => true) (fun _ _ => Fin 17) "roll" 0
                               (id Examples.goblin2) 0
                               [[Examples.orc]; [Examples.goblin1; Examples.goblin2]]) m
        = Some NotRolled).
Proof.
  apply (roll_for_one_combatant (fun _ => true) (fun _ _ => Fin 17)
           [[Examples.orc]; [Examples.goblin1; Examples.goblin2]] 0 1
           [Examples.goblin1; Examples.goblin2] Examples.goblin2).
  - simpl. repeat constructor; simpl; intros H;
      repeat (destruct H as [H | H]; [discriminate H |]); exact H.
  - reflexivity.
  - simpl. right. left. reflexivity.
Defined.

(** A roll for everyone in a path-based mode, made with the ids left
    out, rolls once for every group and sends exactly one update for
    each combatant of the turn order that is not skipped, when none of
    these has a key that is a name of [Object.prototype]. When one has,
    the wrapper throws while it builds the groups, before any roll. *)
Theorem rollAll_updates_every_grouped_combatant
        (host : Host) (resolve : option Combatant -> string -> JsVal)
        (game : Game) (isNPC : Combatant -> bool) (total : nat -> nat -> JsNum)
        (keybind : option bool) (modifierDown : bool)
        (path : string) (turns : list Combatant) :
  isRollForGroupInitiative game keybind modifierDown = true ->
  combat game = Some turns ->
  path_of_mode game (setting_mode (settings game)) = Normal path ->
  (setting_mode (settings game) =? "mob")%string && mobAttackToolActive game = false ->
  ((forall c, In c turns -> skipped game c = false ->
              inherited (bucket_key host resolve path c) = false) ->
   exists outcomes updates,
     groupInitiativeWrapper host resolve game isNPC total keybind modifierDown
                            "rollAll" None
     = RollsGroups [] (Normal [outcomes])
     /\ Forall2 (fun outcome u => exists sound, outcome = Rolled u sound)
                outcomes updates
     /\ Permutation (map fst (concat updates))
                    (map id (filter (fun c => negb (skipped game c)) turns)))
  /\ (forall c, In c turns -> skipped game c = false ->
                inherited (bucket_key host resolve path c) = true ->
      groupInitiativeWrapper host resolve game isNPC total keybind modifierDown
                             "rollAll" None
      = RollsGroups [] (Throw TypeError)).
Proof.
  intros Hroll Hc Hp Hmob.
  pose proof (path_of_mode_listed game _ path Hp) as Hm.
  apply existsb_eqb_In in Hm. split.
  - intros Hkeys.
    destruct (groups_path_result host resolve game _ path turns
                Hc Hp Hmob (or_intror Hm) Hkeys)
      as (result & Hg & Hperm & Hne).
    destruct (roll_groups_all isNPC total 0 "" result 0 Hne)
      as (updates & Hall & Hmap).
    exists (roll_groups isNPC total "rollAll" 0 "" 0 result), updates.
    split; [| split; [exact Hall |]].
    + unfold groupInitiativeWrapper. rewrite Hroll.
      unfold roll_passes, roll_pass. rewrite Hg. reflexivity.
    + rewrite concat_map, Hmap, <- concat_map.
      apply Permutation_map.
      eapply perm_trans; [exact Hperm |].
      erewrite filter_ext; [apply Permutation_refl |].
      intros c. apply grouped_not_skipped.
  - intros c Hin Hs Hi.
    unfold groupInitiativeWrapper. rewrite Hroll.
    unfold roll_passes, roll_pass, groups.
    rewrite (path_of_mode_listed game _ path Hp), Hmob. simpl.
    rewrite (path_groups_throws host resolve game _ path turns c Hc Hp Hin);
      [reflexivity | | exact Hi].
    rewrite grouped_not_skipped, Hs. reflexivity.
Qed.

Lemma rollAll_updates_every_grouped_combatant_witness :
  (exists outcomes updates,
     groupInitiativeWrapper Reference.engine Reference.resolve
       (Examples.table "name" [Examples.goblin1; Examples.orc; Examples.goblin2])
       (fun _ => true) (fun _ _ => Fin 17) (Some true) false "rollAll" None
     = RollsGroups [] (Normal [outcomes])
     /\ Forall2 (fun outcome u => exists sound, outcome = Rolled u sound)
                outcomes updates
     /\ Permutation (map fst (concat updates))
          (map id (filter
             (fun c => negb (skipped
                (Examples.table "name"
                   [Examples.goblin1; Examples.orc; Examples.goblin2]) c))
             [Examples.goblin1; Examples.orc; Examples.goblin2])))
  /\ groupInitiativeWrapper Reference.engine Reference.resolve
       (Examples.table "name"
          [Examples.goblin1; MoreExamples.builder; Examples.goblin2])
       (fun _ => true) (fun _ _ => Fin 17) (Some true) false "rollAll" None
     = RollsGroups [] (Throw TypeError).
Proof.
  split.
  - apply (rollAll_updates_every_grouped_combatant
             Reference.engine Reference.resolve
             (Examples.table "name"
                [Examples.goblin1; Examples.orc; Examples.goblin2])
             (fun _ => true) (fun _ _ => Fin 17) (Some true) false
             "name" [Examples.goblin1; Examples.orc; Examples.goblin2]).
    + reflexivity.
    + reflexivity.
    + reflexivity.
    + reflexivity.
    + intros c [<- | [<- | [<- | []]]] _; reflexivity.
  - apply (rollAll_updates_every_grouped_combatant
             Reference.engine Reference.resolve
             (Examples.table "name"
                [Examples.goblin1; MoreExamples.builder; Examples.goblin2])
             (fun _ => true) (fun _ _ => Fin 17) (Some true) false
             "name" [Examples.goblin1; MoreExamples.builder; Examples.goblin2])
      with (c := MoreExamples.builder).
    + reflexivity.
    + reflexivity.
    + reflexivity.
    + reflexivity.
    + simpl. right. left. reflexivity.
    + reflexivity.
    + reflexivity.
Defined.

(** ** Grouping the selected tokens *)

Lemma add_selection_update_thrown (uid : string) (tokens : list Token) (e : JsError) :
  fold_left (add_selection_update uid) tokens (Throw e) = Throw e.
Proof. induction tokens as [| t rest IH]; simpl; [reflexivity | exact IH]. Qed.

Lemma selection_updates_spec (uid : string) (tokens : list Token)
      (acc updates : list (string * string)) :
  fold_left (add_selection_update uid) tokens (Normal acc) = Normal updates ->
  NoDup (map fst acc) ->
  Forall (fun u => snd u = uid) acc ->
  NoDup (map fst updates)
  /\ Forall (fun u => snd u = uid) updates
  /\ (forall i, In i (map fst updates)
                <-> In i (map fst acc)
                    \/ exists token, In token tokens
                                     /\ inCombat token = true
                                     /\ combatantId token = Some i).
Proof.
  revert acc. induction tokens as [| t rest IH]; intros acc H Hnd Huid.
  - simpl in H. injection H as <-. split; [exact Hnd |]. split; [exact Huid |].
    intros i. split; [auto |]. intros [H | (t & [] & _)]. exact H.
  - simpl in H.
    change (add_selection_update uid (Normal acc) t)
      with (if inCombat t then
              match combatantId t with
              | Some i =>
                  if negb (existsb (fun u => (fst u =? i)%string) acc)
                  then Normal (acc ++ [(i, uid)])
                  else Normal acc
              | None => Throw TypeError
              end
            else Normal acc) in H.
    destruct (inCombat t) eqn:Ein.
    + destruct (combatantId t) as [ci |] eqn:Eid;
        [| rewrite add_selection_update_thrown in H; discriminate H].
      destruct (existsb (fun u => (fst u =? ci)%string) acc) eqn:Ex; simpl in H.
      * destruct (IH acc H Hnd Huid) as (H1 & H2 & H3).
        split; [exact H1 |]. split; [exact H2 |].
        intros i. rewrite H3. split.
        -- intros [Hacc | (t' & Ht' & Hrest)]; [left; exact Hacc |].
           right. exists t'. split; [right; exact Ht' | exact Hrest].
        -- intros [Hacc | (t' & [<- | Ht'] & Hc & Hi)]; [left; exact Hacc | |].
           ++ left. rewrite Eid in Hi. injection Hi as <-.
              apply existsb_exists in Ex as (u & Hu & E).
              apply String.eqb_eq in E. rewrite <- E. apply in_map, Hu.
           ++ right. exists t'. repeat split; assumption.
      * assert (Hnew : ~ In ci (map fst acc)).
        { intros Hin. apply in_map_iff in Hin as (u & Hu & Hin).
          assert (existsb (fun u => (fst u =? ci)%string) acc = true).
          { apply existsb_exists. exists u. split; [exact Hin |].
            rewrite Hu. apply String.eqb_refl. }
          congruence. }
        destruct (IH (acc ++ [(ci, uid)]) H) as (H1 & H2 & H3).
        { rewrite map_app. apply NoDup_app; [exact Hnd | |].
          - constructor; [intros [] | constructor].
          - intros x Hx [<- | []]. contradiction. }
        { apply Forall_app. split; [exact Huid |]. repeat constructor. }
        split; [exact H1 |]. split; [exact H2 |].
        intros i. rewrite H3, map_app, in_app_iff. simpl. split.
        -- intros [[Hacc | [<- | []]] | (t' & Ht' & Hrest)].
           ++ left. exact Hacc.
           ++ right. exists t. repeat split; [left; reflexivity | exact Ein | exact Eid].
           ++ right. exists t'. split; [right; exact Ht' | exact Hrest].
        -- intros [Hacc | (t' & [<- | Ht'] & Hc & Hi)].
           ++ left. left. exact Hacc.
           ++ left. right. left. rewrite Eid in Hi. injection Hi as <-. reflexivity.
           ++ right. exists t'. repeat split; assumption.
    + destruct (IH acc H Hnd Huid) as (H1 & H2 & H3).
      split; [exact H1 |]. split; [exact H2 |].
      intros i. rewrite H3. split.
      * intros [Hacc | (t' & Ht' & Hrest)]; [left; exact Hacc |].
        right. exists t'. split; [right; exact Ht' | exact Hrest].
      * intros [Hacc | (t' & [<- | Ht'] & Hc & Hi)]; [left; exact Hacc | |].
        -- congruence.
        -- right. exists t'. repeat split; assumption.
Qed.

(** The updates sent when tokens are selected as a group name each
    combatant once, give all of them the same group identifier, and
    cover exactly the combatants of the controlled tokens that are in
    combat. *)
Theorem controlToken_updates
        (uid : string) (controlledTokens : list Token)
        (controlled selectGroups : bool) (updates : list (string * string)) :
  controlToken uid controlledTokens controlled selectGroups
  = Normal (Some updates) ->
  NoDup (map fst updates)
  /\ Forall (fun u => snd u = uid) updates
  /\ (forall i, In i (map fst updates)
                <-> exists token, In token controlledTokens
                                  /\ inCombat token = true
                                  /\ combatantId token = Some i).
Proof.
  unfold controlToken.
  destruct ((0 <? length controlledTokens)%nat && controlled && selectGroups);
    [| discriminate].
  intros H. apply bind_Normal in H as (u & Hu & H). injection H as <-.
  destruct (selection_updates_spec uid controlledTokens [] u Hu)
    as (H1 & H2 & H3); [constructor | constructor |].
  split; [exact H1 |]. split; [exact H2 |].
  intros i. rewrite H3. simpl. split; [intros [[] | H]; exact H | auto].
Qed.

Lemma controlToken_updates_witness :
  NoDup (map fst [("G1", "aZ3kLp9QmN21xTy8"); ("O1", "aZ3kLp9QmN21xTy8")])
  /\ Forall (fun u : string * string => snd u = "aZ3kLp9QmN21xTy8")
            [("G1", "aZ3kLp9QmN21xTy8"); ("O1", "aZ3kLp9QmN21xTy8")]
  /\ (forall i,
         In i (map fst [("G1", "aZ3kLp9QmN21xTy8"); ("O1", "aZ3kLp9QmN21xTy8")])
         <-> exists token,
               In token [{| inCombat := true; combatantId := Some "G1" |};
                         {| inCombat := false; combatantId := None |};
                         {| inCombat := true; combatantId := Some "O1" |};
                         {| inCombat := true; combatantId := Some "G1" |}]
               /\ inCombat token = true
               /\ combatantId token = Some i).
Proof.
  apply (controlToken_updates "aZ3kLp9QmN21xTy8"
           [{| inCombat := true; combatantId := Some "G1" |};
            {| inCombat := false; combatantId := None |};
            {| inCombat := true; combatantId := Some "O1" |};
            {| inCombat := true; combatantId := Some "G1" |}]
           true true).
  reflexivity.
Defined.
